(** * langkit: lexer specification and environment binding discipline

    A shallow embedding of [langkit/lexer.py],
    [langkit/expressions/envs.py] and [langkit/template_utils.py], and
    the properties of their specification that can be settled on it.

    Python objects that are mutated in place (the [Env] singleton, a
    [Lexer], the [TokenAction] instantiation counter) are modelled by
    explicit state passing in a small state-and-exception monad: a raised
    exception leaves the state as it was at the [raise], exactly as a
    Python exception leaves the heap. *)

From Stdlib Require Import String Ascii List Bool Arith Lia.
From stdpp Require Import base option list sorting gmap strings pretty.

Import ListNotations.
Set Warnings "-register-all".
Open Scope string_scope.
Open Scope list_scope.

(* ===================================================================== *)
(** ** Exceptions and the state monad *)
(* ===================================================================== *)

(** The exceptions the two modules can raise.  [DiagnosticError] is what
    [check_source_language] raises after reporting; the others are the
    ordinary Python exceptions raised by [assert], [raise ValueError],
    a missing attribute, an index out of range. *)
Inductive exn : Type :=
| DiagnosticError (msg : string)
| AssertionError (msg : string)
| ValueError (msg : string)
| NotImplementedError
| AttributeError (attr : string)
| IndexError.

Definition is_diagnostic (e : exn) : bool :=
  match e with DiagnosticError _ => true | _ => false end.

Inductive outcome (A : Type) : Type :=
| Ok (a : A)
| Raise (e : exn).
Arguments Ok {A} a.
Arguments Raise {A} e.

Definition is_ok {A} (o : outcome A) : bool :=
  match o with Ok _ => true | Raise _ => false end.

(** A computation over a mutable store [S]. *)
Definition M (S A : Type) : Type := S -> outcome A * S.

Definition ret {S A} (a : A) : M S A := fun s => (Ok a, s).

Definition andthen {S A B} (c : M S A) (k : A -> M S B) : M S B :=
  fun s => match c s with
           | (Ok a, s1) => k a s1
           | (Raise e, s1) => (Raise e, s1)
           end.

Definition raise {S A} (e : exn) : M S A := fun s => (Raise e, s).
Definition get {S} : M S S := fun s => (Ok s, s).
Definition put {S} (s' : S) : M S unit := fun _ => (Ok tt, s').
Definition modify {S} (f : S -> S) : M S unit := fun s => (Ok tt, f s).

Declare Scope py_scope.
Delimit Scope py_scope with py.
Notation "x <- c ;; k" := (andthen c (fun x => k))
  (at level 100, c at next level, right associativity) : py_scope.
Notation "c ;;; k" := (andthen c (fun _ => k))
  (at level 100, right associativity) : py_scope.
Open Scope py_scope.

(** A list comprehension [[f(x) for x in l]] whose body has effects. *)
Section map_m.
Context {S A B : Type}.
Variable f : A -> M S B.

Fixpoint map_m (l : list A) : M S (list B) :=
  match l with
  | [] => ret []
  | x :: l' =>
      r <- f x;;
      rs <- map_m l';;
      ret (r :: rs)
  end.
End map_m.

(** Modelled from the spec: [langkit.diagnostics.check_source_language]
    is not part of the sources at hand.  "report(condition, message):
    when condition is false, aborts current processing with message". *)
Definition check_source_language {S} (predicate : bool) (message : string)
  : M S unit :=
  if predicate then ret tt else raise (DiagnosticError message).

(** Python's [assert cond, msg]. *)
Definition assert {S} (cond : bool) (msg : string) : M S unit :=
  if cond then ret tt else raise (AssertionError msg).

(** A context manager written as a generator with one [yield] and no
    [try]/[finally] around it (the only kind these modules define):
    [cm_enter] is the code before the [yield] and returns the generator's
    locals, [cm_exit] is the code after it. *)
Record ContextManager (S X : Type) : Type := mkCM {
  cm_enter : M S X;
  cm_exit : X -> M S unit
}.
Arguments mkCM {S X} _ _.
Arguments cm_enter {S X} _.
Arguments cm_exit {S X} _ _.

(** [with cm: body].  [contextlib] resumes the generator after the
    [yield] when the body completes; when the body raises, the exception
    is thrown into the generator at the [yield], where nothing catches
    it, so the code after the [yield] does not run and the exception
    propagates. *)
Definition with_ {S X A} (cm : ContextManager S X) (body : M S A) : M S A :=
  fun s =>
    match cm_enter cm s with
    | (Raise e, s1) => (Raise e, s1)
    | (Ok x, s1) =>
        match body s1 with
        | (Raise e, s2) => (Raise e, s2)
        | (Ok a, s2) =>
            match cm_exit cm x s2 with
            | (Ok _, s3) => (Ok a, s3)
            | (Raise e, s3) => (Raise e, s3)
            end
        end
    end.

(** A relation between the store before and after that every normal
    return of a computation respects. *)
Definition preserves {S} (R : S -> S -> Prop) {A} (c : M S A) : Prop :=
  forall s a s', c s = (Ok a, s') -> R s s'.

(** A computation that always returns and leaves the store as it
    found it. *)
Definition reads_only {S A} (c : M S A) : Prop :=
  forall s, exists a, c s = (Ok a, s).

(** Every value a computation returns satisfies [P]. *)
Definition returns_with {S A} (P : A -> Prop) (c : M S A) : Prop :=
  forall s a s', c s = (Ok a, s') -> P a.

(* ===================================================================== *)
(** ** Names *)
(* ===================================================================== *)

Module names.

Definition is_upper (c : ascii) : bool :=
  ((65 <=? nat_of_ascii c) && (nat_of_ascii c <=? 90))%nat.
Definition is_lower (c : ascii) : bool :=
  ((97 <=? nat_of_ascii c) && (nat_of_ascii c <=? 122))%nat.
Definition is_digit (c : ascii) : bool :=
  ((48 <=? nat_of_ascii c) && (nat_of_ascii c <=? 57))%nat.

Definition lower_char (c : ascii) : ascii :=
  if is_upper c then ascii_of_nat (nat_of_ascii c + 32)%nat else c.
Definition upper_char (c : ascii) : ascii :=
  if is_lower c then ascii_of_nat (nat_of_ascii c - 32)%nat else c.

(** Python's [str.lower()] on a byte string. *)
Fixpoint lower (s : string) : string :=
  match s with
  | EmptyString => EmptyString
  | String c s' => String (lower_char c) (lower s')
  end.

(** Modelled from the spec: [langkit.names.Name] is not part of the
    sources at hand.  The specification only relies on a name being a
    value with an equality, built from a constant
    ([Name("Current_Env")]), from a class attribute's camel-case
    identifier, or from a "case-insensitive string that is a declared
    token name".  A name is kept as its words in mixed case joined by
    underscores. *)
Record Name : Type := mkName { base_name : string }.

#[global] Instance Name_eq_dec : EqDecision Name.
Proof. solve_decision. Defined.

#[global] Instance Name_countable : Countable Name.
Proof.
  apply (inj_countable' base_name mkName). intros []. reflexivity.
Defined.

Fixpoint capitalize_words (start : bool) (s : string) : string :=
  match s with
  | EmptyString => EmptyString
  | String c s' =>
      if Ascii.eqb c "_"
      then String c (capitalize_words true s')
      else String (if start then upper_char c else lower_char c)
                  (capitalize_words false s')
  end.

(** Modelled from the spec: [Name.from_lower], a name from its
    lower-case spelling ([lexing_failure] is [Lexing_Failure]). *)
Definition from_lower (s : string) : Name :=
  mkName (capitalize_words true s).

Fixpoint split_camel (s : string) : string :=
  match s with
  | EmptyString => EmptyString
  | String c s' =>
      if is_upper c then String "_" (String c (split_camel s'))
      else String c (split_camel s')
  end.

(** Modelled from the spec: [Name.from_camel], a name from a camel-case
    identifier ([LexingFailure] is [Lexing_Failure]). *)
Definition from_camel (s : string) : Name :=
  match s with
  | EmptyString => mkName EmptyString
  | String c s' => mkName (String c (split_camel s'))
  end.

Definition camel_with_underscores (n : Name) : string := base_name n.

End names.

Abbreviation Name := names.Name.

(* ===================================================================== *)
(** ** langkit/expressions/envs.py *)
(* ===================================================================== *)

Module envs.

Import names.

(** *** Types, properties and local variables (collaborators) *)

(** Modelled from the spec: [langkit.compiled_types] is not part of the
    sources at hand.  "node types, primitive types (boolean, symbol,
    token, environment, node, arrays thereof) ... a closed,
    externally-defined type lattice".  [RootNode] is [T.root_node],
    [EnvElement t] is [t.env_el()], the lookup-result type of a node
    type, and [ArrayType t] is [t.array_type()]. *)
Inductive CompiledType : Type :=
| BoolType
| LexicalEnvType
| Symbol
| Token
| RootNode
| EnvElement (node : CompiledType)
| ArrayType (element_type : CompiledType).

#[global] Instance CompiledType_eq_dec : EqDecision CompiledType.
Proof. solve_decision. Defined.

Definition root_node : CompiledType := RootNode.
Definition env_el (t : CompiledType) : CompiledType := EnvElement t.
Definition array_type (t : CompiledType) : CompiledType := ArrayType t.

(** Modelled from the spec: the text a type is named by in a
    diagnostic. *)
Fixpoint type_name (t : CompiledType) : string :=
  match t with
  | BoolType => "BoolType"
  | LexicalEnvType => "LexicalEnvType"
  | Symbol => "Symbol"
  | Token => "Token"
  | RootNode => "RootNode"
  | EnvElement n => "EnvElement(" +:+ type_name n +:+ ")"
  | ArrayType e => "ArrayType(" +:+ type_name e +:+ ")"
  end.

(** Modelled from the spec: [CompiledType.matches], the compatibility
    of a resolved type with a required one; on this closed lattice
    without node subtypes it is equality. *)
Definition matches (t expected : CompiledType) : bool :=
  bool_decide (t = expected).

(** The part of [PropertyDef] that [envs.py] reads. *)
Record PropertyDef : Type := mkProperty { has_implicit_env : bool }.

Record LocalVar : Type := mkLocalVar {
  lv_name : Name;
  lv_type : CompiledType
}.

(** *** The store

    [_is_bound] and [_name] are the two mutable attributes of the [Env]
    singleton; [property] is [PropertyDef.get()], the property under
    construction, [local_vars] its [vars], and [array_types] the array
    types registered by [add_to_context]. *)
Record EnvState : Type := mkState {
  _is_bound : bool;
  _name : Name;
  property : PropertyDef;
  local_vars : list LocalVar;
  array_types : list CompiledType
}.

Definition set_is_bound (b : bool) (s : EnvState) : EnvState :=
  mkState b (_name s) (property s) (local_vars s) (array_types s).
Definition set_name (n : Name) (s : EnvState) : EnvState :=
  mkState (_is_bound s) n (property s) (local_vars s) (array_types s).
Definition set_local_vars (l : list LocalVar) (s : EnvState) : EnvState :=
  mkState (_is_bound s) (_name s) (property s) l (array_types s).
Definition set_array_types (l : list CompiledType) (s : EnvState)
  : EnvState :=
  mkState (_is_bound s) (_name s) (property s) (local_vars s) l.

Abbreviation C := (M EnvState).

(** Modelled from the spec: [LocalVars.create] is not part of the
    sources at hand.  "named temporaries holding retained environment
    values ... exclusive to the resolved node that created them": every
    call declares a variable under a name not handed out before, the
    base name followed by the number of variables already declared. *)
Definition fresh_name (base : string) (n : nat) : Name :=
  match n with
  | O => mkName base
  | S _ => mkName (base +:+ "_" +:+ pretty n)
  end.

Definition vars_create (base : string) (t : CompiledType) : C LocalVar :=
  s <- get;;
  let v := mkLocalVar (fresh_name base (length (local_vars s))) t in
  put (set_local_vars (local_vars s ++ [v]) s);;;
  ret v.

Definition add_to_context (t : CompiledType) : C unit :=
  modify (fun s => set_array_types (array_types s ++ [t]) s).

(** *** Expressions *)

(** The abstract variables: the [Env] singleton of class [EnvVariable],
    [EmptyEnv], [Self], and any other one. *)
Inductive AbstractVariable : Type :=
| EnvV
| EmptyEnvV
| SelfV
| OtherV (name : Name) (type : CompiledType).

(** What [env_get] may receive as [symbol_expr]: an expression, a [str],
    or any other Python value (given by its [repr]). *)
Inductive key_arg (E : Type) : Type :=
| KeyExpr (e : E)
| KeyStr (s : string)
| KeyOther (repr : string).
Arguments KeyExpr {E} e.
Arguments KeyStr {E} s.
Arguments KeyOther {E} repr.

(** The abstract expressions of this module.  [BoolLit] is a Python
    [bool] used where an expression is expected (the default
    [recursive=True]). *)
Inductive AbstractExpression : Type :=
| VarRef (v : AbstractVariable)
| BoolLit (b : bool)
| EnvGet (env_expr : AbstractExpression)
         (symbol_expr : key_arg AbstractExpression)
         (resolve_unique sequential : bool)
         (recursive : AbstractExpression)
| EvalInEnv (env_expr to_eval_expr : AbstractExpression)
| EnvOrphan (env_expr : AbstractExpression)
| EnvGroup (env_exprs : list AbstractExpression)
| EnvGroupArray (env_array_expr : AbstractExpression)
| IsVisibleFrom (referenced_env base_env : AbstractExpression)
| EnvNode (env : AbstractExpression).

Definition Env : AbstractExpression := VarRef EnvV.
Definition EmptyEnv : AbstractExpression := VarRef EmptyEnvV.
Definition Self : AbstractExpression := VarRef SelfV.

(** The resolved expressions.  [EnvBindExpr] is defined in [envs.py];
    the others are the node kinds of [langkit.expressions.base] that
    [envs.py] instantiates. *)
Inductive ResolvedExpression : Type :=
| VarExpr (v : AbstractVariable)
| LiteralExpr (b : bool)
| SymbolLiteralExpr (s : string)
| GetSymbolExpr (token_expr : ResolvedExpression)
| BasicExpr (template : string) (type : CompiledType)
            (operands : list ResolvedExpression)
            (result_var_name : option string)
| BuiltinCallExpr (name : string) (type : CompiledType)
                  (operands : list ResolvedExpression)
                  (result_var_name : option string)
| ArrayExpr (exprs : list ResolvedExpression) (element_type : CompiledType)
| EnvBindExpr (env_expr to_eval_expr : ResolvedExpression)
              (env_var : LocalVar).

Definition var_type (v : AbstractVariable) : CompiledType :=
  match v with
  | EnvV => LexicalEnvType
  | EmptyEnvV => LexicalEnvType
  | SelfV => root_node
  | OtherV _ t => t
  end.

(** The static type of a resolved node; for [EnvBindExpr] it is
    [self.static_type = self.to_eval_expr.type]. *)
Fixpoint type (e : ResolvedExpression) : CompiledType :=
  match e with
  | VarExpr v => var_type v
  | LiteralExpr _ => BoolType
  | SymbolLiteralExpr _ => Symbol
  | GetSymbolExpr _ => Symbol
  | BasicExpr _ t _ _ => t
  | BuiltinCallExpr _ t _ _ => t
  | ArrayExpr _ t => array_type t
  | EnvBindExpr _ to_eval _ => type to_eval
  end.

(** *** class EnvVariable *)

Definition default_name : Name := mkName "Current_Env".

(** The state after [Env = EnvVariable()], within property [p]. *)
Definition init (p : PropertyDef) : EnvState :=
  mkState false default_name p [] [].

Definition is_bound (s : EnvState) : bool := _is_bound s.

Definition has_ambient_env (s : EnvState) : bool :=
  has_implicit_env (property s) || is_bound s.

Definition bind : ContextManager EnvState bool :=
  mkCM (s <- get;;
        let saved_is_bound := _is_bound s in
        put (set_is_bound true s);;;
        ret saved_is_bound)
       (fun saved_is_bound => modify (set_is_bound saved_is_bound)).

(** Modelled from the spec: [AbstractVariable.bind_name] is not part of
    the sources at hand.  "a current textual binding name used when
    rendering.  Mutated only through scoped acquire/release pairs"; it
    is written like its sibling [bind]. *)
Definition bind_name (name : Name) : ContextManager EnvState Name :=
  mkCM (s <- get;;
        let old_name := _name s in
        put (set_name name s);;;
        ret old_name)
       (fun old_name => modify (set_name old_name)).

(** A generator whose [yield] sits inside [with cm:]. *)
Definition yield_within {S X Y} (cm : ContextManager S X)
  : ContextManager S (X + Y) :=
  mkCM (x <- cm_enter cm;; ret (inl x))
       (fun v => match v with
                 | inl x => cm_exit cm x
                 | inr _ => ret tt
                 end).

Definition bind_default (prop : PropertyDef)
  : ContextManager EnvState (Name + bool) :=
  if has_implicit_env prop then yield_within (bind_name default_name)
  else
    mkCM (s <- get;;
          let saved_is_bound := _is_bound s in
          put (set_is_bound false s);;;
          ret (inr saved_is_bound))
         (fun v => match v with
                   | inr saved_is_bound =>
                       modify (set_is_bound saved_is_bound)
                   | inl _ => ret tt
                   end).

(** Modelled from the spec: [AbstractVariable.construct], the resolved
    node of a variable reference. *)
Definition AbstractVariable_construct (v : AbstractVariable)
  : C ResolvedExpression :=
  ret (VarExpr v).

Definition no_implicit_env_msg : string :=
  "This property has no implicit environment parameter: please use"
  +:+ " the eval_in_env construct to bind an environment first.".

Definition EnvVariable_construct : C ResolvedExpression :=
  s <- get;;
  check_source_language (has_ambient_env s) no_implicit_env_msg;;;
  AbstractVariable_construct EnvV.

(** *** The construction pass *)

(** Modelled from the spec: the [construct] function of
    [langkit.expressions.base] is not part of the sources at hand.
    "given an abstract expression tree and a required/expected type (or
    none), produce a resolved expression tree whose root's type is
    compatible with the requirement, or fail with a diagnostic naming
    the incompatible type".  [method] is the [construct] method of the
    expression's class. *)
Definition construct_with
    (method : AbstractExpression -> C ResolvedExpression)
    (expr : AbstractExpression) (expected_type : option CompiledType)
  : C ResolvedExpression :=
  r <- method expr;;
  match expected_type with
  | None => ret r
  | Some t =>
      check_source_language
        (matches (type r) t)
        ("Expected type " +:+ type_name t +:+ ", got " +:+ type_name (type r));;;
      ret r
  end.

(** Modelled from the spec: [GetSymbol.construct_static], the "dedicated
    intern step" that converts a token to a symbol. *)
Definition GetSymbol_construct_static (token_expr : ResolvedExpression)
  : C ResolvedExpression :=
  ret (GetSymbolExpr token_expr).

(** [EnvBindExpr.__init__]. *)
Definition EnvBindExpr_init (env_expr to_eval_expr : ResolvedExpression)
  : C ResolvedExpression :=
  env_var <- vars_create "New_Env" LexicalEnvType;;
  ret (EnvBindExpr env_expr to_eval_expr env_var).

(** [construct(Self, t)]: [Self] is a plain abstract variable, whose
    [construct] method is [AbstractVariable.construct]. *)
Definition construct_Self (expected_type : option CompiledType)
  : C ResolvedExpression :=
  construct_with (fun _ => AbstractVariable_construct SelfV)
                 Self expected_type.

Section functions.

(** [construct] as the functions of this module call it. *)
Variable construct :
  AbstractExpression -> option CompiledType -> C ResolvedExpression.

(** [construct(symbol_expr)]: a [str] is turned into a symbol
    literal; a value that is no expression never gets here. *)
Definition construct_key (symbol_expr : key_arg AbstractExpression)
  : C ResolvedExpression :=
  match symbol_expr with
  | KeyExpr e => construct e None
  | KeyStr s => ret (SymbolLiteralExpr s)
  | KeyOther repr =>
      raise (AttributeError "construct")
  end.

(** [isinstance(symbol_expr, (AbstractExpression, str))] fails for a
    Python [bool] as for any other value; the message has its [repr]. *)
Definition invalid_key (symbol_expr : key_arg AbstractExpression)
  : option string :=
  match symbol_expr with
  | KeyOther repr => Some repr
  | KeyExpr (BoolLit b) => Some (if b then "True" else "False")
  | _ => None
  end.

Definition env_get (env_expr : AbstractExpression)
    (symbol_expr : key_arg AbstractExpression)
    (resolve_unique sequential : bool)
    (recursive : AbstractExpression) : C ResolvedExpression :=
  match invalid_key symbol_expr with
  | Some repr =>
      check_source_language
        false ("Invalid key argument for Env.get: " +:+ repr)
  | None => ret tt
  end;;;
  sym_expr <- construct_key symbol_expr;;
  sym_expr <- (if bool_decide (type sym_expr = Token)
               then GetSymbol_construct_static sym_expr
               else ret sym_expr);;
  check_source_language
    (bool_decide (type sym_expr = Symbol))
    ("Wrong type for symbol expr: " +:+ type_name (type sym_expr));;;
  env <- construct env_expr (Some LexicalEnvType);;
  let sub_exprs := [env; sym_expr] in
  p <- (if sequential
        then
          from <- construct_Self (Some root_node);;
          ret ("AST_Envs.Get"
               +:+ "  (Self      => {},"
               +:+ "   Key => {},"
               +:+ "   From => {},"
               +:+ "   Recursive => {})",
               sub_exprs ++ [from])
        else
          ret ("AST_Envs.Get (Self => {}, Key => {}, Recursive => {})",
               sub_exprs));;
  let array_expr := fst p in
  let sub_exprs := snd p in
  rec <- construct recursive (Some BoolType);;
  let sub_exprs := sub_exprs ++ [rec] in
  let make_expr := fun template t =>
    BasicExpr template t sub_exprs (Some "Env_Get_Result") in
  if resolve_unique
  then ret (make_expr ("Get (" +:+ array_expr +:+ ", 0)")
                      (env_el root_node))
  else
    add_to_context (array_type (env_el root_node));;;
    ret (make_expr ("Create (" +:+ array_expr +:+ ")")
                   (array_type (env_el root_node))).

Definition eval_in_env (env_expr to_eval_expr : AbstractExpression)
  : C ResolvedExpression :=
  env_resolved_expr <- construct env_expr (Some LexicalEnvType);;
  with_ bind
    (to_eval <- construct to_eval_expr None;;
     EnvBindExpr_init env_resolved_expr to_eval).

Definition env_orphan (env_expr : AbstractExpression)
  : C ResolvedExpression :=
  e <- construct env_expr (Some LexicalEnvType);;
  ret (BuiltinCallExpr "AST_Envs.Orphan" LexicalEnvType [e]
                       (Some "Orphan_Env")).

Definition env_group (env_array_expr : AbstractExpression)
  : C ResolvedExpression :=
  e <- construct env_array_expr (Some (array_type LexicalEnvType));;
  ret (BuiltinCallExpr "Group" LexicalEnvType [e] (Some "Group_Env")).

Definition is_visible_from (referenced_env base_env : AbstractExpression)
  : C ResolvedExpression :=
  b <- construct base_env (Some LexicalEnvType);;
  r <- construct referenced_env (Some LexicalEnvType);;
  ret (BuiltinCallExpr "Is_Visible_From" BoolType [b; r] None).

Definition env_node (env : AbstractExpression) : C ResolvedExpression :=
  e <- construct env (Some LexicalEnvType);;
  ret (BasicExpr "{}.Node" root_node [e] None).

End functions.

(** The [construct] method, by the class of the expression.
    [EnvGroup.construct] is written out here because of its list of
    operands. *)
Fixpoint construct_method (e : AbstractExpression) {struct e}
  : C ResolvedExpression :=
  let construct := construct_with construct_method in
  match e with
  | VarRef EnvV => EnvVariable_construct
  | VarRef v => AbstractVariable_construct v
  | BoolLit b => ret (LiteralExpr b)
  | EnvGet env_expr symbol_expr resolve_unique sequential recursive =>
      env_get construct env_expr symbol_expr resolve_unique sequential
              recursive
  | EvalInEnv env_expr to_eval_expr =>
      eval_in_env construct env_expr to_eval_expr
  | EnvOrphan env_expr => env_orphan construct env_expr
  | EnvGroup env_exprs =>
      env_exprs' <-
        map_m (fun e => construct e (Some LexicalEnvType)) env_exprs;;
      ret (BuiltinCallExpr "Group" LexicalEnvType
                           [ArrayExpr env_exprs' LexicalEnvType]
                           (Some "Group_Env"))
  | EnvGroupArray env_array_expr => env_group construct env_array_expr
  | IsVisibleFrom referenced_env base_env =>
      is_visible_from construct referenced_env base_env
  | EnvNode env => env_node construct env
  end.

Definition construct := construct_with construct_method.

(** *** Rendering *)

(** Python's ['\n']. *)
Definition nl : string := String (ascii_of_nat 10) EmptyString.

(** Modelled from the spec: the rendering of a variable reference is
    not part of the sources at hand.  "a current textual binding name
    used when rendering": a reference to [Env] renders as the name [Env]
    is bound to at that moment, any other variable as its own name. *)
Definition var_render_expr (v : AbstractVariable) : C string :=
  match v with
  | EnvV => s <- get;; ret (camel_with_underscores (_name s))
  | EmptyEnvV => ret "AST_Envs.Empty_Env"
  | SelfV => ret "Self"
  | OtherV n _ => ret (camel_with_underscores n)
  end.

(** [EnvBindExpr._render_pre] and [EnvBindExpr._render_expr], given the
    rendering of the two sub-expressions. *)
Definition EnvBindExpr_render_pre
    (env_expr_render_pre env_expr_render_expr to_eval_render_pre : C string)
    (env_var : LocalVar) : C string :=
  env_expr_pre <- env_expr_render_pre;;
  env_expr <- env_expr_render_expr;;
  let env_var_name := camel_with_underscores (lv_name env_var) in
  let result :=
    env_expr_pre +:+ nl +:+
    env_var_name +:+ " := " +:+ env_expr +:+ ";" +:+ nl +:+
    "Inc_Ref (" +:+ env_var_name +:+ ");" in
  with_ (bind_name (lv_name env_var))
    (to_eval_pre <- to_eval_render_pre;;
     ret (result +:+ nl +:+ to_eval_pre)).

Definition EnvBindExpr_render_expr (to_eval_render_expr : C string)
    (env_var : LocalVar) : C string :=
  with_ (bind_name (lv_name env_var)) to_eval_render_expr.

Section rendering.

(** The text of the node kinds of [langkit.expressions.base], which
    is not part of the sources at hand, as a function of the node and
    of the texts of its operands ("a sequence of preparatory effects
    followed by a pure result expression"). *)
Variable format_pre :
  ResolvedExpression -> list string -> list string -> string.
Variable format_expr : ResolvedExpression -> list string -> string.

(** [render pre e] is [e.render_pre()] when [pre] is set and
    [e.render_expr()] otherwise. *)
Fixpoint render (pre : bool) (e : ResolvedExpression) {struct e}
  : C string :=
  let each := fun pre => map_m (render pre) in
  let of_operands := fun operands : C (list string) * C (list string) =>
    if pre
    then (ps <- fst operands;;
          es <- snd operands;;
          ret (format_pre e ps es))
    else (es <- snd operands;;
          ret (format_expr e es)) in
  match e with
  | VarExpr v => if pre then ret EmptyString else var_render_expr v
  | LiteralExpr _ => of_operands (ret [], ret [])
  | SymbolLiteralExpr _ => of_operands (ret [], ret [])
  | GetSymbolExpr t =>
      of_operands (r <- render true t;; ret [r],
                   r <- render false t;; ret [r])
  | BasicExpr _ _ operands _ =>
      of_operands (each true operands, each false operands)
  | BuiltinCallExpr _ _ operands _ =>
      of_operands (each true operands, each false operands)
  | ArrayExpr exprs _ =>
      of_operands (each true exprs, each false exprs)
  | EnvBindExpr env_expr to_eval_expr env_var =>
      if pre
      then EnvBindExpr_render_pre
             (render true env_expr) (render false env_expr)
             (render true to_eval_expr) env_var
      else EnvBindExpr_render_expr (render false to_eval_expr) env_var
  end.

Definition render_pre : ResolvedExpression -> C string := render true.
Definition render_expr : ResolvedExpression -> C string := render false.

(** The text a rendering returns. *)
Definition rendered (pre : bool) (e : ResolvedExpression) (s : EnvState)
  : string :=
  match render pre e s with
  | (Ok text, _) => text
  | (Raise _, _) => EmptyString
  end.

End rendering.

(** The variable [EnvBindExpr.__init__] declares in store [s]. *)
Definition new_env_var (s : EnvState) : LocalVar :=
  mkLocalVar (fresh_name "New_Env" (length (local_vars s))) LexicalEnvType.

(** *** Scopes and what they leave behind *)

(** The ambient binding state is the same in [s'] as in [s]. *)
Definition same_binding (s s' : EnvState) : Prop :=
  _is_bound s' = _is_bound s /\ _name s' = _name s.

(** What the construction pass leaves behind when it returns: the
    binding state and the current property are as before, and local
    variables have only been added. *)
Definition kept (s s' : EnvState) : Prop :=
  same_binding s s' /\ property s' = property s /\
  length (local_vars s) <= length (local_vars s').

(** The scoped operations on the binding state. *)
Inductive scope : Type :=
| BindScope
| BindDefaultScope (prop : PropertyDef)
| BindNameScope (name : Name).

(** [with Env.bind(): body], [with Env.bind_default(prop): body] and
    [with Env.bind_name(name): body]. *)
Definition within {A} (sc : scope) (body : C A) : C A :=
  match sc with
  | BindScope => with_ bind body
  | BindDefaultScope prop => with_ (bind_default prop) body
  | BindNameScope name => with_ (bind_name name) body
  end.

(** Scopes entered one inside the other, the first outermost. *)
Definition nest {A} (scopes : list scope) (body : C A) : C A :=
  fold_right within body scopes.

(** *** What can be told from the expression alone *)

(** The static type of what an abstract expression resolves to. *)
Fixpoint static_type (e : AbstractExpression) : CompiledType :=
  match e with
  | VarRef v => var_type v
  | BoolLit _ => BoolType
  | EnvGet _ _ resolve_unique _ _ =>
      if resolve_unique then env_el root_node
      else array_type (env_el root_node)
  | EvalInEnv _ to_eval_expr => static_type to_eval_expr
  | EnvOrphan _ => LexicalEnvType
  | EnvGroup _ => LexicalEnvType
  | EnvGroupArray _ => LexicalEnvType
  | IsVisibleFrom _ _ => BoolType
  | EnvNode _ => root_node
  end.

(** The state the body of [with Env.bind_default(prop):] starts in. *)
Definition default_binding (prop : PropertyDef) (s : EnvState) : EnvState :=
  if has_implicit_env prop then set_name default_name s
  else set_is_bound false s.

End envs.

(* ===================================================================== *)
(** ** langkit/lexer.py *)
(* ===================================================================== *)

Module lexer.

Import names.

(** Lifting of a computation that touches no state. *)
Definition lift {S A} (o : outcome A) : M S A := fun s => (o, s).

(** *** Matchers *)

Inductive Matcher : Type :=
| Pattern (pattern : string)
| PredefPattern (name pattern : string)
| Literal (to_match : string)
| NoCase (to_match : string)
| Eof
| Failure.

(** [re.escape(c) == c] for a one-character string: Python 2's
    [re.escape] puts a backslash before every character that is not an
    ASCII letter or digit. *)
Definition re_escape_fixes (c : ascii) : bool :=
  is_upper c || is_lower c || is_digit c.

Definition pattern_char_ok (c : ascii) : bool :=
  re_escape_fixes c || Ascii.eqb c "." || Ascii.eqb c "'".

Fixpoint pattern_chars_ok (pattern : string) : bool :=
  match pattern with
  | EmptyString => true
  | String c s => pattern_char_ok c && pattern_chars_ok s
  end.

(** Python 2's [repr] of a [str]: within single quotes, or within
    double quotes when the string has a single quote and no double
    quote; the quote in use and the backslash are escaped with a
    backslash, tab, newline and carriage return are written [\t], [\n]
    and [\r], and any other character outside the printable ASCII
    range as [\x] and two hexadecimal digits. *)
Definition double_quote : ascii := ascii_of_nat 34.

Fixpoint contains_char (c : ascii) (s : string) : bool :=
  match s with
  | EmptyString => false
  | String c' s' => Ascii.eqb c c' || contains_char c s'
  end.

Definition repr_quote (s : string) : ascii :=
  if contains_char "'" s && negb (contains_char double_quote s)
  then double_quote else "'"%char.

Definition hex_digit (n : nat) : ascii :=
  if (n <? 10)%nat then ascii_of_nat (48 + n) else ascii_of_nat (87 + n).

Definition repr_char (quote c : ascii) : string :=
  let n := nat_of_ascii c in
  if Ascii.eqb c quote || Ascii.eqb c "\"
  then String "\" (String c EmptyString)
  else if (n =? 9)%nat then "\t"
  else if (n =? 10)%nat then "\n"
  else if (n =? 13)%nat then "\r"
  else if (n <? 32)%nat || (127 <=? n)%nat
  then String "\" (String "x" (String (hex_digit (n / 16))
                                 (String (hex_digit (n mod 16)) EmptyString)))
  else String c EmptyString.

Fixpoint repr_chars (quote : ascii) (s : string) : string :=
  match s with
  | EmptyString => EmptyString
  | String c s' => repr_char quote c +:+ repr_chars quote s'
  end.

Definition repr_str (s : string) : string :=
  let quote := repr_quote s in
  String quote (repr_chars quote s +:+ String quote EmptyString).

Definition Pattern_max_match_length (pattern : string) : outcome Z :=
  if pattern_chars_ok pattern
  then Ok (Z.of_nat (String.length pattern))
  else Raise (ValueError
                ("Cannot compute the maximum number of characters this"
                 +:+ " pattern will accept: " +:+ repr_str pattern)).

(** [Failure] does not override the method of the base class. *)
Definition max_match_length (m : Matcher) : outcome Z :=
  match m with
  | Pattern p => Pattern_max_match_length p
  | PredefPattern _ p => Pattern_max_match_length p
  | Literal to_match => Ok (Z.of_nat (String.length to_match))
  | NoCase to_match => Pattern_max_match_length to_match
  | Eof => Ok 0%Z
  | Failure => Raise NotImplementedError
  end.

(** *** Token actions *)

Inductive TokenActionClass : Type := WithText | WithTrivia | WithSymbol.

(** A [TokenAction] instance.  [name] is [None] until
    [LexerToken.add_tokens] names the instance. *)
Record TokenAction : Type := mkTokenAction {
  token_class : TokenActionClass;
  _index : nat;
  name : option Name;
  start_ignore_layout : bool;
  end_ignore_layout : bool
}.

Definition value (t : TokenAction) : nat := _index t.

Definition with_name (n : Name) (t : TokenAction) : TokenAction :=
  mkTokenAction (token_class t) (_index t) (Some n)
                (start_ignore_layout t) (end_ignore_layout t).

(** The process-wide store of this module is [TokenAction._counter],
    given by the next number it yields. *)
Abbreviation P := (M nat).

(** [TokenAction.__init__]. *)
Definition TokenAction_init (c : TokenActionClass)
    (start_ignore_layout end_ignore_layout : bool) : P TokenAction :=
  i <- get;;
  put (S i);;;
  ret (mkTokenAction c i None start_ignore_layout end_ignore_layout).

(** One assignment [fld_name = Class(start, end)] of a class body. *)
Record TokenDecl : Type := mkDecl {
  fld_name : string;
  fld_class : TokenActionClass;
  fld_start_ignore_layout : bool;
  fld_end_ignore_layout : bool
}.

(** The token attributes of a class [__dict__]; like a Python 2 [dict]
    it keeps no trace of the order of insertion. *)
Abbreviation ClassDict := (gmap string TokenAction).

(** The assignments of a class body, run in order into [d]. *)
Fixpoint class_body (decls : list TokenDecl) (d : ClassDict) : P ClassDict :=
  match decls with
  | [] => ret d
  | x :: rest =>
      t <- TokenAction_init (fld_class x) (fld_start_ignore_layout x)
                            (fld_end_ignore_layout x);;
      class_body rest (<[fld_name x := t]> d)
  end.

(** The body of [class LexerToken], run when the module is loaded. *)
Definition LexerToken_class : P ClassDict :=
  class_body [mkDecl "Termination" WithText false false;
              mkDecl "LexingFailure" WithText false false] ∅.

(** A [LexerToken] instance: the classes of its [inspect.getmro], its
    own class first, and its [fields]. *)
Record LexerToken : Type := mkLexerToken {
  mro : list ClassDict;
  fields : list TokenAction
}.

(** [add_tokens] names the instances of [klass] in place and returns
    what it appends to [fields], in the order of [klass.__dict__.items()]. *)
Definition named (klass : ClassDict) : ClassDict :=
  map_imap (fun fld_name fld_value =>
              Some (with_name (from_camel fld_name) fld_value)) klass.

Definition add_tokens (klass : ClassDict) : list TokenAction :=
  snd <$> map_to_list (named klass).

Definition indent_decls : list TokenDecl :=
  [mkDecl "Indent" WithText false false;
   mkDecl "Dedent" WithText false false;
   mkDecl "Newline" WithText false false].

(** [LexerToken.__init__], for an instance whose class has the method
    resolution order [klass :: bases]. *)
Definition LexerToken_init (klass : ClassDict) (bases : list ClassDict)
    (track_indent : bool) : P LexerToken :=
  klass <- (if track_indent then class_body indent_decls klass
            else ret klass);;
  let classes := klass :: bases in
  ret (mkLexerToken (named <$> classes)
                    (concat (add_tokens <$> classes))).

(** Attribute lookup [tokens.attr] along the method resolution order. *)
Fixpoint lookup_mro (classes : list ClassDict) (attr : string)
  : outcome TokenAction :=
  match classes with
  | [] => Raise (AttributeError attr)
  | c :: rest =>
      match c !! attr with
      | Some t => Ok t
      | None => lookup_mro rest attr
      end
  end.

Definition getattr (tokens : LexerToken) (attr : string)
  : outcome TokenAction :=
  lookup_mro (mro tokens) attr.

(** *** Actions, alternatives and rules *)

Record Alt : Type := mkAlt {
  prev_token_cond : option (list TokenAction);
  send : option TokenAction;
  match_size : option Z
}.

Inductive Action : Type :=
| TokAct (t : TokenAction)
| Ignore
| CaseAction (max_match_len : Z) (alts : list Alt) (last_alt : Alt).

(** The Python values that reach the dynamically typed entry points
    [add_rules] and [token_base_name]. *)
Inductive pyobj : Type :=
| PyMatcher (m : Matcher)
| PyAction (a : Action)
| PyRuleAssoc (matcher action : pyobj)
| PyTuple (elts : list pyobj)
| PyName (n : Name)
| PyStr (s : string)
| PyInt (z : Z)
| PyNone.

(** [RuleAssoc(matcher, action)] stores whatever it is given. *)
Record RuleAssoc : Type := mkRuleAssoc { matcher : pyobj; action : pyobj }.

(** What [Case] may receive as an alternative. *)
Inductive alt_arg : Type :=
| IsAlt (a : Alt)
| NotAlt (repr : string).

(** [alt.match_size <= max_match_len]; in Python 2 [None] is smaller
    than every number. *)
Definition match_size_le (size : option Z) (max_match_len : Z) : bool :=
  match size with
  | None => true
  | Some n => (n <=? max_match_len)%Z
  end.

Definition repr_size (size : option Z) : string :=
  match size with
  | None => "None"
  | Some n => pretty n
  end.

(** The [for] loop of [CaseAction.__init__]; it returns the
    alternatives it has checked. *)
Fixpoint check_alts (max_match_len : Z) (alts : list alt_arg)
  : outcome (list Alt) :=
  match alts with
  | [] => Ok []
  | NotAlt repr :: _ =>
      Raise (AssertionError
               ("Invalid alternative to Case matcher: " +:+ repr))
  | IsAlt alt :: rest =>
      if match_size_le (match_size alt) max_match_len
      then match check_alts max_match_len rest with
           | Ok l => Ok (alt :: l)
           | Raise e => Raise e
           end
      else Raise (AssertionError
                    ("Match size for this Case alternative ("
                     +:+ repr_size (match_size alt)
                     +:+ ") cannot be longer than the Case matcher ("
                     +:+ pretty max_match_len +:+ " chars)"))
  end.

(** [Case.CaseAction.__init__]: [alts[-1]] raises [IndexError] on an
    empty tuple. *)
Definition CaseAction_init (max_match_len : Z) (alts : list alt_arg)
  : outcome Action :=
  match check_alts max_match_len alts with
  | Raise e => Raise e
  | Ok checked =>
      match last checked with
      | None => Raise IndexError
      | Some last_alt =>
          match prev_token_cond last_alt with
          | Some _ =>
              Raise (AssertionError
                       ("The last alternative to a case matcher "
                        +:+ "must have no prev token condition"))
          | None =>
              Ok (CaseAction max_match_len
                             (removelast checked) last_alt)
          end
      end
  end.

(** [Case.__init__]: the arguments of [Case.CaseAction] are evaluated
    first, [matcher.max_match_length()] before anything else. *)
Definition Case_init (m : Matcher) (alts : list alt_arg)
  : outcome RuleAssoc :=
  match max_match_length m with
  | Raise e => Raise e
  | Ok n =>
      match CaseAction_init n alts with
      | Raise e => Raise e
      | Ok a => Ok (mkRuleAssoc (PyMatcher m) (PyAction a))
      end
  end.

(** *** class Lexer *)

(** The attributes of a [Lexer] that its methods read after
    construction.  [_patterns] is the private list [__patterns];
    [patterns] is the [Patterns] holder, by attribute name. *)
Record Lexer : Type := mkLexer {
  tokens : LexerToken;
  patterns : gmap string Matcher;
  _patterns : list Matcher;
  rules : list RuleAssoc;
  tokens_set : gset Name;
  track_indent : bool;
  literals_map : gmap string pyobj
}.

Abbreviation L := (M Lexer).

Definition set_patterns (p : gmap string Matcher) (l : list Matcher)
    (x : Lexer) : Lexer :=
  mkLexer (tokens x) p l (rules x) (tokens_set x) (track_indent x)
          (literals_map x).
Definition set_rules (r : list RuleAssoc) (x : Lexer) : Lexer :=
  mkLexer (tokens x) (patterns x) (_patterns x) r (tokens_set x)
          (track_indent x) (literals_map x).
Definition set_literals_map (m : gmap string pyobj) (x : Lexer) : Lexer :=
  mkLexer (tokens x) (patterns x) (_patterns x) (rules x) (tokens_set x)
          (track_indent x) m.

Fixpoint add_patterns (pats : list (string * string)) : L unit :=
  match pats with
  | [] => ret tt
  | (k, v) :: rest =>
      let predef_pattern := PredefPattern k v in
      modify (fun x => set_patterns (<[lower k := predef_pattern]> (patterns x))
                                    (_patterns x ++ [predef_pattern]) x);;;
      add_patterns rest
  end.

(** The body of the loop of [add_rules], for one entry. *)
Definition add_rule (matcher_assoc : pyobj) : L unit :=
  rule_assoc <-
    match matcher_assoc with
    | PyTuple elts =>
        assert (bool_decide (length elts = 2)) EmptyString;;;
        match elts with
        | [m; a] => ret (mkRuleAssoc m a)
        | _ => raise (ValueError "unpack")
        end
    | PyRuleAssoc m a => ret (mkRuleAssoc m a)
    | _ => raise (AssertionError EmptyString)
    end;;
  modify (fun x => set_rules (rules x ++ [rule_assoc]) x);;;
  let m := matcher rule_assoc in
  let a := action rule_assoc in
  match m with
  | PyMatcher (Literal to_match) =>
      modify (fun x => set_literals_map (<[to_match := a]> (literals_map x)) x)
  | _ => ret tt
  end.

Fixpoint add_rules (rules : list pyobj) : L unit :=
  match rules with
  | [] => ret tt
  | matcher_assoc :: rest => add_rule matcher_assoc;;; add_rules rest
  end.

(** What [emit] hands to the renderer under the template
    [lexer/quex_lexer_spec]. *)
Definition emit_inputs (x : Lexer)
  : LexerToken * list Matcher * list RuleAssoc :=
  (tokens x, _patterns x, rules x).

(** [Lexer.__init__] for a tokens class of method resolution order
    [klass :: bases]. *)
Definition Lexer_init (klass : ClassDict) (bases : list ClassDict)
    (track_indent : bool) : P Lexer :=
  tokens <- LexerToken_init klass bases track_indent;;
  let self :=
    mkLexer tokens ∅ [] []
            (list_to_set (omap name (fields tokens)))
            track_indent ∅ in
  Termination <- lift (getattr tokens "Termination");;
  LexingFailure <- lift (getattr tokens "LexingFailure");;
  let run := fun (c : L unit) (self : Lexer) =>
    match c self with
    | (Ok _, self) => ret self
    | (Raise e, _) => raise e
    end in
  self <- run (add_rules
                 [PyTuple [PyMatcher Eof; PyAction (TokAct Termination)];
                  PyTuple [PyMatcher Failure;
                           PyAction (TokAct LexingFailure)]]) self;;
  if track_indent
  then
    Newline <- lift (getattr tokens "Newline");;
    run (add_rules
           [PyTuple [PyMatcher (Literal "\n");
                     PyAction (TokAct Newline)]]) self
  else ret self.

(** [obj.name] for the values a literal may be mapped to. *)
Definition getattr_name (o : pyobj) : L pyobj :=
  match o with
  | PyAction (TokAct t) =>
      ret (match name t with Some n => PyName n | None => PyNone end)
  | PyMatcher (PredefPattern n _) => ret (PyStr n)
  | _ => raise (AttributeError "name")
  end.

(** [token_base_name].  When [token] is of no accepted kind the
    [assert] fails, and evaluating its message, which reads
    [self.tokens.__name__] on an instance, raises [AttributeError].  A
    function that falls off its end returns [None]. *)
Definition token_base_name (token : pyobj) : L pyobj :=
  self <- get;;
  match token with
  | PyAction (TokAct t) => getattr_name token
  | PyName n =>
      assert (bool_decide (n ∈ tokens_set self)) EmptyString;;;
      ret token
  | PyStr s =>
      let name := from_lower (lower s) in
      if bool_decide (name ∈ tokens_set self) then ret (PyName name)
      else
        match literals_map self !! s with
        | Some a => getattr_name a
        | None =>
            check_source_language
              false
              (s +:+ " token literal is not part of the valid tokens for "
                 +:+ "this grammar");;;
            ret PyNone
        end
  | _ => raise (AttributeError "__name__")
  end.

(** [sorted_tokens]: [sorted(self.tokens, key=lambda t: t.value)]. *)
Definition by_value (a b : TokenAction) : Prop := value a <= value b.

#[global] Instance by_value_dec a b : Decision (by_value a b).
Proof. unfold by_value. apply _. Defined.

Definition sorted_tokens (self : Lexer) : list TokenAction :=
  merge_sort by_value (fields (tokens self)).

(** *** What the operations are compared with *)

(** The class dictionary of [LexerToken] itself: its body is the first
    code that instantiates token actions. *)
Definition LexerToken_dict : ClassDict :=
  match LexerToken_class 0 with
  | (Ok d, _) => d
  | (Raise _, _) => ∅
  end.

(** The rule association an entry of [add_rules] stands for, when it is
    a two-element tuple or a rule association. *)
Definition as_rule (entry : pyobj) : option RuleAssoc :=
  match entry with
  | PyTuple [m; a] => Some (mkRuleAssoc m a)
  | PyRuleAssoc m a => Some (mkRuleAssoc m a)
  | _ => None
  end.

(** The entry of [literals_map] a rule writes, if any. *)
Definition record_literal (m : gmap string pyobj) (r : RuleAssoc)
  : gmap string pyobj :=
  match matcher r with
  | PyMatcher (Literal to_match) => <[to_match := action r]> m
  | _ => m
  end.

(** The lexer after the rule [r] has been appended and recorded. *)
Definition with_rule (self : Lexer) (r : RuleAssoc) : Lexer :=
  set_literals_map (record_literal (literals_map self) r)
                   (set_rules (rules self ++ [r]) self).

(** The token instances a class body creates when it runs with the
    counter at [c], inserted into [d]. *)
Fixpoint declare (decls : list TokenDecl) (d : ClassDict) (c : nat)
  : ClassDict :=
  match decls with
  | [] => d
  | x :: rest =>
      declare rest
              (<[fld_name x :=
                   mkTokenAction (fld_class x) c None
                                 (fld_start_ignore_layout x)
                                 (fld_end_ignore_layout x)]> d)
              (S c)
  end.

(** The named instance that the declaration [x] creates when the
    counter is at [c], and those of a whole class body, in declaration
    order. *)
Definition instance_of (x : TokenDecl) (c : nat) : TokenAction :=
  mkTokenAction (fld_class x) c (Some (from_camel (fld_name x)))
                (fld_start_ignore_layout x) (fld_end_ignore_layout x).

Fixpoint instances (decls : list TokenDecl) (c : nat) : list TokenAction :=
  match decls with
  | [] => []
  | x :: rest => instance_of x c :: instances rest (S c)
  end.

Definition builtin_decls : list TokenDecl :=
  [mkDecl "Termination" WithText false false;
   mkDecl "LexingFailure" WithText false false].

(** The token kinds of a lexer in declaration order: the two built-in
    kinds, the kinds of the class body, run when the counter was at
    [c], and the layout kinds, created when the lexer is constructed
    with the counter at [c1]. *)
Definition catalog (decls : list TokenDecl) (c c1 : nat)
    (track_indent : bool) : list TokenAction :=
  instances builtin_decls 0 ++ instances decls c
    ++ (if track_indent then instances indent_decls c1 else []).


(** An entry of [add_rules] for the rule [r], written as a tuple or as
    a rule association. *)
Definition entry_of (r : RuleAssoc * bool) : pyobj :=
  if snd r then PyTuple [matcher (fst r); action (fst r)]
  else PyRuleAssoc (matcher (fst r)) (action (fst r)).

(** A tokens class with three kinds, declared when nothing but
    [LexerToken] itself has instantiated a token action, and its lexer. *)
Definition Token_decls : list TokenDecl :=
  [mkDecl "Is" WithText false false;
   mkDecl "Identifier" WithSymbol false false;
   mkDecl "Number" WithText false false].

Definition Token_class : ClassDict := declare Token_decls ∅ 2.

Definition example_lexer : Lexer :=
  match Lexer_init Token_class [LexerToken_dict] false 5 with
  | (Ok self, _) => self
  | (Raise _, _) => mkLexer (mkLexerToken [] []) ∅ [] [] ∅ false ∅
  end.

(** The classes of the tokens instance of a lexer: the layout kinds
    are added to the class of the instance. *)
Definition lexer_classes (klass : ClassDict) (bases : list ClassDict)
    (track_indent : bool) (c : nat) : list ClassDict :=
  (if track_indent then declare indent_decls klass c else klass) :: bases.

(** The kinds of value [token_base_name] has a branch for. *)
Definition accepted_kind (token : pyobj) : bool :=
  match token with
  | PyAction (TokAct _) | PyName _ | PyStr _ => true
  | _ => false
  end.

(** [token.name] as a Python value. *)
Definition name_of (t : TokenAction) : pyobj :=
  match name t with Some n => PyName n | None => PyNone end.

(** The values that have a [name] attribute: token actions and
    predefined patterns. *)
Definition has_name (o : pyobj) : bool :=
  match o with
  | PyAction (TokAct _) | PyMatcher (PredefPattern _ _) => true
  | _ => false
  end.




(** *** The rest of the class [Lexer] and of the tokens class *)

(** [LexerToken.__len__]. *)
Definition LexerToken_len (tokens : LexerToken) : nat :=
  length (fields tokens).

(** The attributes that every instance of a class has from [object]
    and from its class statement. *)
Definition object_attributes : list string :=
  ["__class__"; "__delattr__"; "__doc__"; "__format__";
   "__getattribute__"; "__hash__"; "__init__"; "__new__"; "__reduce__";
   "__reduce_ex__"; "__repr__"; "__setattr__"; "__sizeof__"; "__str__";
   "__subclasshook__"; "__dict__"; "__module__"; "__weakref__"].

(** The attributes of a [Lexer] with a public name: those that
    [__init__] sets and those of the class body. *)
Definition Lexer_public_attributes : list string :=
  ["tokens"; "patterns"; "rules"; "tokens_set"; "track_indent";
   "literals_map"; "prefix"; "token_actions";
   "PredefPattern"; "add_patterns"; "add_rules"; "emit";
   "token_base_name"; "quex_token_name"; "c_token_name";
   "ada_token_name"; "sorted_tokens"].

(** All the attributes that normal lookup finds on a [Lexer];
    [__patterns] is stored under its mangled name. *)
Definition Lexer_attributes : list string :=
  Lexer_public_attributes
    ++ ["_Lexer__patterns"; "__getattr__"] ++ object_attributes.

(** The attributes of [LexerToken] itself that are no token kind and
    that a [Lexer] does not have: the list [fields] of the instance,
    and the methods of the class. *)
Definition LexerToken_methods : list string :=
  ["add_tokens"; "__iter__"; "__len__"].

Definition LexerToken_public_attributes : list string :=
  ["fields"; "add_tokens"].

(** What [lexer.attr] evaluates to: an attribute of the lexer or of
    the tokens instance themselves, whose value is not described here,
    or a token kind. *)
Inductive Lexer_attribute : Type :=
| OwnAttribute
| TokenKind (t : TokenAction).

(** [lexer.attr], for tokens classes whose bodies declare token kinds
    only.  [Lexer.__getattr__] is called only when normal lookup has
    not found [attr]; it is then a shortcut to the attributes of
    [self.tokens]: the instance's [fields], a kind declared under
    [attr] along the method resolution order, or else a method of
    [LexerToken]. *)
Definition Lexer_getattr (self : Lexer) (attr : string)
  : outcome Lexer_attribute :=
  if bool_decide (attr ∈ Lexer_attributes) then Ok OwnAttribute
  else if String.eqb attr "fields" then Ok OwnAttribute
  else match getattr (tokens self) attr with
       | Ok t => Ok (TokenKind t)
       | Raise e =>
           if bool_decide (attr ∈ LexerToken_methods) then Ok OwnAttribute
           else Raise e
       end.

(** A name for a token kind that is no attribute of the lexer or of
    the tokens instance themselves and no special name. *)
Definition plain_name (attr : string) : bool :=
  match attr with
  | String c _ => negb (Ascii.eqb c "_")
  | EmptyString => true
  end
  && bool_decide (attr ∉ Lexer_public_attributes
                          ++ LexerToken_public_attributes).

(** The matcher of [r] is the literal of text [t]. *)
Definition is_literal (t : string) (r : RuleAssoc) : bool :=
  match matcher r with
  | PyMatcher (Literal to_match) => String.eqb to_match t
  | _ => false
  end.

(** The action of the last rule of [rs] whose matcher is the literal of
    text [t]. *)
Fixpoint last_literal (t : string) (rs : list RuleAssoc) : option pyobj :=
  match rs with
  | [] => None
  | r :: rest =>
      match last_literal t rest with
      | Some a => Some a
      | None => if is_literal t r then Some (action r) else None
      end
  end.

(** The map of literals says what the rule list says. *)
Definition literals_consistent (self : Lexer) : Prop :=
  forall t, literals_map self !! t = last_literal t (rules self).

End lexer.

(* ===================================================================== *)
(** ** langkit/template_utils.py *)
(* ===================================================================== *)

Module template_utils.

(** Computations of this module raise exceptions of their own kind [X]:
    those of the template engine, and [TypeError]. *)
Inductive result (X A : Type) : Type :=
| Returns (a : A)
| Raises (x : X).
Arguments Returns {X A} a.
Arguments Raises {X A} x.

Definition Comp (X S A : Type) : Type := S -> result X A * S.

Definition done {X S A} (a : A) : Comp X S A := fun s => (Returns a, s).
Definition fail {X S A} (x : X) : Comp X S A := fun s => (Raises x, s).

Definition and_then {X S A B} (c : Comp X S A) (k : A -> Comp X S B)
  : Comp X S B :=
  fun s => match c s with
           | (Returns a, s1) => k a s1
           | (Raises x, s1) => (Raises x, s1)
           end.

Declare Scope tu_scope.
Notation "x <- c ;; k" := (and_then c (fun x => k))
  (at level 100, c at next level, right associativity) : tu_scope.
Notation "c ;;; k" := (and_then c (fun _ => k))
  (at level 100, right associativity) : tu_scope.
#[local] Open Scope tu_scope.

(** [posixpath.join]: a component that starts with a slash discards
    what precedes it; a separator is added unless the path so far is
    empty or already ends with one. *)
Definition starts_with_slash (s : string) : bool :=
  match s with
  | String c _ => Ascii.eqb c "/"
  | EmptyString => false
  end.

Fixpoint ends_with_slash (s : string) : bool :=
  match s with
  | EmptyString => false
  | String c EmptyString => Ascii.eqb c "/"
  | String _ s' => ends_with_slash s'
  end.

Definition join2 (path b : string) : string :=
  if starts_with_slash b then b
  else if String.eqb path EmptyString || ends_with_slash path
       then path +:+ b
       else path +:+ "/" +:+ b.

Definition path_join (a : string) (p : list string) : string :=
  foldl join2 a p.

(** [TypeError] is what a call raises when a keyword argument names a
    parameter that a positional argument has already bound. *)
Inductive error (X : Type) : Type :=
| TypeError
| Engine (x : X).
Arguments TypeError {X}.
Arguments Engine {X} x.

Section renderer.

(** [V]: the values bound to names in a template environment.  [T]: a
    compiled Mako template.  [E]: what the template engine reads and
    writes outside the interpreter's heap (template files, standard
    error).  [X]: the exceptions of the engine, of which [is_Exception]
    tells those that derive from [Exception].  The engine itself is a
    parameter: [Template] is [Template(strict_undefined=True,
    filename=...)], [Template_render] is [t.render] on the unpacked
    environment, [report_error] writes Mako's text error report to
    standard error, [module_dir] is
    [path.dirname(path.realpath(__file__))]. *)
Context {V T E X : Type}.
Variable Template : string -> Comp X E T.
Variable Template_render : T -> gmap string V -> Comp X E string.
Variable report_error : Comp X E unit.
Variable is_Exception : X -> bool.
Variable module_dir : string.

(** A [dict] (or [TemplateEnvironment]) with string keys. *)
Local Abbreviation dict := (gmap string V).

(** The interpreter's state: the dictionaries allocated so far, each
    known by its address, which is its position in [heap]; the module's
    [template_cache]; the engine's outside world. *)
Record Process : Type := mkProcess {
  heap : list dict;
  template_cache : gmap string T;
  outside : E
}.

Local Abbreviation P := (Comp (error X) Process).

(** A [Renderer] holds a reference to its environment. *)
Record Renderer : Type := mkRenderer { env : nat }.

Definition set_heap (h : list dict) (p : Process) : Process :=
  mkProcess h (template_cache p) (outside p).

Definition new_dict (d : dict) : P nat :=
  fun p => (Returns (length (heap p)), set_heap (heap p ++ [d]) p).

Definition read (l : nat) : P dict :=
  fun p => (Returns (default ∅ (heap p !! l)), p).

(** [d.update(other)]: the bindings of [other] replace those of [d],
    in place. *)
Definition dict_update (l : nat) (other : dict) : P unit :=
  fun p =>
    (Returns tt, set_heap (alter (fun d => other ∪ d) l (heap p)) p).

Definition on_outside {A} (c : Comp X E A) : P A :=
  fun p =>
    match c (outside p) with
    | (Returns a, e) => (Returns a, mkProcess (heap p) (template_cache p) e)
    | (Raises x, e) =>
        (Raises (Engine x), mkProcess (heap p) (template_cache p) e)
    end.

(** [d.items()], in whatever order the dictionary keeps them. *)
Definition items (d : dict) : list (string * V) := map_to_list d.

(** [dict(pairs)]: of two pairs with the same key the later one wins. *)
Definition dict_of_items (pairs : list (string * V)) : dict :=
  foldl (fun d kv => <[kv.1 := kv.2]> d) ∅ pairs.

(** [arg or {}] for an argument that is [None] or a dictionary: an
    empty dictionary is falsy and is replaced by another empty one. *)
Definition or_empty (arg : option nat) : P dict :=
  match arg with
  | None => done ∅
  | Some l => read l
  end.

(** [Renderer.__init__], once its arguments are bound:
    [TemplateEnvironment(template_env or {})] copies its argument into
    a new dictionary, which [kwargs] then updates. *)
Definition Renderer_init (template_env : option nat) (kwargs : dict)
  : P Renderer :=
  d <- or_empty template_env;;
  e <- new_dict d;;
  dict_update e kwargs;;;
  done (mkRenderer e).

(** The names a keyword may not use in [Renderer(self.env, **keywords)]:
    [__init__]'s [self] and [template_env] are bound by position. *)
Definition bound_by_position (keywords : dict) : bool :=
  bool_decide (is_Some (keywords !! "self"))
  || bool_decide (is_Some (keywords !! "template_env")).

(** The call [Renderer(self.env, **keywords)]. *)
Definition Renderer_call (template_env : nat) (keywords : dict)
  : P Renderer :=
  if bound_by_position keywords then fail TypeError
  else Renderer_init (Some template_env) keywords.

(** [update]: the call unpacks the bindings of [env]. *)
Definition update (self : Renderer) (env_arg : nat) : P Renderer :=
  keywords <- read env_arg;;
  Renderer_call (env self) keywords.

(** The call of [self.extend] with [keywords]: a keyword [self] raises
    [TypeError] when [extend] is called, and [template_env] when it
    calls [Renderer]. *)
Definition extend (self : Renderer) (keywords : dict) : P Renderer :=
  if bool_decide (is_Some (keywords !! "self")) then fail TypeError
  else Renderer_call (env self) keywords.

Definition t_path (file_name : string) : string :=
  path_join module_dir ["templates"; file_name +:+ ".mako"].

(** [mako_template]: a [Template] object is truthy, so [if not t] is
    the test for a missing cache entry. *)
Definition mako_template (file_name : string) : P T :=
  fun p =>
    match template_cache p !! t_path file_name with
    | Some t => (Returns t, p)
    | None =>
        (t <- on_outside (Template (t_path file_name));;
         fun p => (Returns t,
                   mkProcess (heap p)
                             (<[t_path file_name := t]> (template_cache p))
                             (outside p))) p
    end.

Definition caught (x : error X) : bool :=
  match x with
  | TypeError => true
  | Engine x => is_Exception x
  end.

(** [try: body except Exception: sys.stderr.write(...); raise]: the
    exception caught is raised again once the report is written; an
    exception of the report itself takes its place. *)
Definition reporting {A} (body : P A) : P A :=
  fun p =>
    match body p with
    | (Returns a, p1) => (Returns a, p1)
    | (Raises x, p1) =>
        if caught x then
          match on_outside report_error p1 with
          | (Returns _, p2) => (Raises x, p2)
          | (Raises x', p2) => (Raises x', p2)
          end
        else (Raises x, p1)
    end.

(** [_render]: the template is looked up before [self.env] is
    unpacked. *)
Definition _render (self : Renderer) (template_name : string) : P string :=
  reporting (t <- mako_template template_name;;
             d <- read (env self);;
             on_outside (Template_render t d)).

(** The body of [render], once its arguments are bound. *)
Definition render_body (self : Renderer) (template_name : string)
    (env_arg : option nat) (kwargs : dict) : P string :=
  e <- or_empty env_arg;;
  te <- new_dict (dict_of_items (items e ++ items kwargs));;
  r <- update self te;;
  _render r template_name.

(** The names a keyword may not use in
    [self.render(template_name, env, **keywords)]: the parameters
    [self], [template_name] and [env] are bound by position. *)
Definition bound_by_render (keywords : dict) : bool :=
  bool_decide (is_Some (keywords !! "self"))
  || bool_decide (is_Some (keywords !! "template_name"))
  || bool_decide (is_Some (keywords !! "env")).

(** The call [self.render(template_name, env, **keywords)], with [env]
    [None] or a dictionary: a keyword that names a parameter raises
    [TypeError] before the body runs; the other keywords are the
    [kwargs] of the body. *)
Definition render (self : Renderer) (template_name : string)
    (env_arg : option nat) (keywords : dict) : P string :=
  if bound_by_render keywords then fail TypeError
  else render_body self template_name env_arg keywords.

(** What [_render] does with a template environment [d]. *)
Definition render_with (template_name : string) (d : dict) : P string :=
  reporting (t <- mako_template template_name;;
             on_outside (Template_render t d)).

(** Nothing allocated is overwritten and no cached template is dropped
    or replaced. *)
Definition keeps (p p' : Process) : Prop :=
  (forall l d, heap p !! l = Some d -> heap p' !! l = Some d) /\
  template_cache p ⊆ template_cache p'.

End renderer.

(** An engine that compiles a template to its path and renders it to
    that path, in a process with one renderer. *)
Definition example_process : @Process nat string unit :=
  mkProcess [{["Name" := 0; "get_type" := 1]}] ∅ tt.

Definition example_Template : string -> Comp unit unit string :=
  fun path => done path.

Definition example_render : string -> gmap string nat -> Comp unit unit string :=
  fun t _ => done t.

End template_utils.

(* ===================================================================== *)
(** ** Reasoning about computations *)
(* ===================================================================== *)

Section monad_facts.

Context {S : Type}.

Lemma andthen_ok_inv {A B} (c : M S A) (k : A -> M S B) s b s' :
  andthen c k s = (Ok b, s') ->
  exists a s1, c s = (Ok a, s1) /\ k a s1 = (Ok b, s').
Proof.
  unfold andthen. destruct (c s) as [[a|e] s1]; intros H.
  - exists a, s1. split; [reflexivity | exact H].
  - discriminate H.
Qed.

Lemma andthen_ok {A B} (c : M S A) (k : A -> M S B) s a s1 :
  c s = (Ok a, s1) -> andthen c k s = k a s1.
Proof. unfold andthen. intros ->. reflexivity. Qed.

Lemma andthen_raise {A B} (c : M S A) (k : A -> M S B) s e s1 :
  c s = (Raise e, s1) -> andthen c k s = (Raise e, s1).
Proof. unfold andthen. intros ->. reflexivity. Qed.

Lemma check_ok_inv (p : bool) msg (s : S) u s' :
  check_source_language p msg s = (Ok u, s') -> p = true /\ s' = s.
Proof.
  unfold check_source_language. destruct p; cbv [ret raise]; intros H.
  - inversion H. split; reflexivity.
  - discriminate H.
Qed.

Lemma assert_ok_inv (p : bool) msg (s : S) u s' :
  assert p msg s = (Ok u, s') -> p = true /\ s' = s.
Proof.
  unfold assert. destruct p; cbv [ret raise]; intros H.
  - inversion H. split; reflexivity.
  - discriminate H.
Qed.

Lemma with_ok_inv {X A} (cm : ContextManager S X) (body : M S A) s a s' :
  with_ cm body s = (Ok a, s') ->
  exists x s1 s2,
    cm_enter cm s = (Ok x, s1) /\ body s1 = (Ok a, s2) /\
    cm_exit cm x s2 = (Ok tt, s').
Proof.
  unfold with_.
  destruct (cm_enter cm s) as [[x|e] s1] eqn:He; [|discriminate].
  destruct (body s1) as [[a'|e] s2] eqn:Hb; [|discriminate].
  destruct (cm_exit cm x s2) as [[u|e] s3] eqn:Hx; [|discriminate].
  destruct u. intros H. inversion H. subst. exists x, s1, s2.
  repeat split; assumption || reflexivity.
Qed.

Lemma with_raise {X A} (cm : ContextManager S X) (body : M S A) s x s1 e s2 :
  cm_enter cm s = (Ok x, s1) -> body s1 = (Raise e, s2) ->
  with_ cm body s = (Raise e, s2).
Proof. unfold with_. intros -> ->. reflexivity. Qed.

Section preserved.

Variable R : S -> S -> Prop.
Hypothesis R_refl : forall s, R s s.
Hypothesis R_trans : forall s1 s2 s3, R s1 s2 -> R s2 s3 -> R s1 s3.

Lemma preserves_ret {A} (a : A) : preserves R (ret a).
Proof. intros s a' s' H. inversion H. subst. apply R_refl. Qed.

Lemma preserves_raise {A} e : preserves R (@raise S A e).
Proof. intros s a s' H. discriminate H. Qed.

Lemma preserves_get : preserves R (@get S).
Proof. intros s a s' H. inversion H. subst. apply R_refl. Qed.

Lemma preserves_check p msg : preserves R (@check_source_language S p msg).
Proof.
  intros s a s' H. apply check_ok_inv in H as [_ ->]. apply R_refl.
Qed.

Lemma preserves_andthen {A B} (c : M S A) (k : A -> M S B) :
  preserves R c -> (forall a, preserves R (k a)) -> preserves R (andthen c k).
Proof.
  intros Hc Hk s b s' H.
  apply andthen_ok_inv in H as (a & s1 & H1 & H2).
  eapply R_trans; [eapply Hc | eapply Hk]; eassumption.
Qed.

End preserved.

Lemma reads_only_ret {A} (a : A) : reads_only (S:=S) (ret a).
Proof. intros s. exists a. reflexivity. Qed.

Lemma reads_only_andthen {A B} (c : M S A) (k : A -> M S B) :
  reads_only c -> (forall a, reads_only (k a)) -> reads_only (andthen c k).
Proof.
  intros Hc Hk s. destruct (Hc s) as [a Ha]. destruct (Hk a s) as [b Hb].
  exists b. rewrite (andthen_ok _ _ _ _ _ Ha). exact Hb.
Qed.

Lemma reads_only_map_m {A B} (f : A -> M S B) (l : list A) :
  Forall (fun x => reads_only (f x)) l -> reads_only (map_m f l).
Proof.
  induction 1 as [|x l Hx Hl IH]; simpl.
  - apply reads_only_ret.
  - apply reads_only_andthen; [exact Hx | intros r].
    apply reads_only_andthen; [exact IH | intros rs].
    apply reads_only_ret.
Qed.

End monad_facts.

(* ===================================================================== *)
(** ** Properties of langkit/expressions/envs.py *)
(* ===================================================================== *)

Module envs_facts.

Import names envs.

(** Induction on abstract expressions, through the key of a lookup and
    the operands of a group. *)
Lemma AbstractExpression_nested_ind (P : AbstractExpression -> Prop) :
  (forall v, P (VarRef v)) ->
  (forall b, P (BoolLit b)) ->
  (forall env key ru sq rec,
      P env ->
      match key with KeyExpr e => P e | _ => True end ->
      P rec ->
      P (EnvGet env key ru sq rec)) ->
  (forall a b, P a -> P b -> P (EvalInEnv a b)) ->
  (forall a, P a -> P (EnvOrphan a)) ->
  (forall l, Forall P l -> P (EnvGroup l)) ->
  (forall a, P a -> P (EnvGroupArray a)) ->
  (forall a b, P a -> P b -> P (IsVisibleFrom a b)) ->
  (forall a, P a -> P (EnvNode a)) ->
  forall e, P e.
Proof.
  intros Hvar Hbool Hget Heval Horphan Hgroup Harray Hvis Hnode.
  fix IH 1. intros [v|b|env key ru sq rec|a b|a|l|a|a b|a].
  - apply Hvar.
  - apply Hbool.
  - apply Hget; [apply IH | | apply IH].
    destruct key as [e| |]; [apply IH | exact I | exact I].
  - apply Heval; apply IH.
  - apply Horphan; apply IH.
  - apply Hgroup. revert l. fix IHl 1. intros [|x l'].
    + constructor.
    + constructor; [apply IH | apply IHl].
  - apply Harray; apply IH.
  - apply Hvis; apply IH.
  - apply Hnode; apply IH.
Qed.

Lemma kept_refl s : kept s s.
Proof. repeat split; reflexivity || lia. Qed.

Lemma kept_trans s1 s2 s3 : kept s1 s2 -> kept s2 s3 -> kept s1 s3.
Proof.
  intros [[Hb1 Hn1] [Hp1 Hl1]] [[Hb2 Hn2] [Hp2 Hl2]].
  repeat split; try congruence. lia.
Qed.

Lemma kept_andthen {A B} (c : C A) (k : A -> C B) :
  preserves kept c -> (forall a, preserves kept (k a)) ->
  preserves kept (andthen c k).
Proof. apply preserves_andthen. exact kept_trans. Qed.

Lemma kept_ret {A} (a : A) : preserves kept (ret a).
Proof. apply preserves_ret. exact kept_refl. Qed.

Lemma kept_check p msg : preserves kept (check_source_language p msg).
Proof. apply preserves_check. exact kept_refl. Qed.

Lemma kept_vars_create base t : preserves kept (vars_create base t).
Proof.
  intros s v s' H. cbv [vars_create andthen get put ret] in H.
  inversion H; subst; clear H.
  repeat split; simpl. rewrite length_app. lia.
Qed.

Lemma kept_add_to_context t : preserves kept (add_to_context t).
Proof.
  intros s v s' H. cbv [add_to_context modify] in H.
  inversion H; subst; clear H. repeat split; simpl; lia.
Qed.

(** Composition of computations that keep the binding state. *)
Ltac kept_step :=
  first
    [ apply kept_ret
    | apply kept_check
    | apply kept_vars_create
    | apply kept_add_to_context
    | apply preserves_raise
    | assumption
    | apply kept_andthen; [| intros ?] ].

Lemma kept_construct_with method e t :
  preserves kept (method e) -> preserves kept (construct_with method e t).
Proof.
  intros H. unfold construct_with.
  apply kept_andthen; [exact H | intros r].
  destruct t; repeat kept_step.
Qed.

Lemma kept_EnvVariable_construct : preserves kept EnvVariable_construct.
Proof.
  unfold EnvVariable_construct, AbstractVariable_construct.
  apply kept_andthen; [apply preserves_get; exact kept_refl | intros s].
  repeat kept_step.
Qed.

(** A scope returns to the binding state it was entered in when its
    body does. *)
Lemma kept_within {A} sc (body : C A) :
  preserves kept body -> preserves kept (within sc body).
Proof.
  intros Hbody s a s' H. destruct sc as [|prop|n]; simpl in H.
  - apply with_ok_inv in H as (x & s1 & s2 & He & Hb & Hx).
    cbv [bind cm_enter andthen get put ret] in He.
    inversion He; subst; clear He.
    apply Hbody in Hb as [[Hb1 Hb2] [Hb3 Hb4]].
    cbv [bind cm_exit modify] in Hx.
    inversion Hx; subst; clear Hx.
    repeat split; simpl in *; congruence || lia.
  - apply with_ok_inv in H as (x & s1 & s2 & He & Hb & Hx).
    unfold bind_default in He, Hx.
    destruct (has_implicit_env prop).
    + cbv [yield_within bind_name cm_enter andthen get put ret]
        in He.
      inversion He; subst; clear He.
      apply Hbody in Hb as [[Hb1 Hb2] [Hb3 Hb4]].
      cbv [yield_within bind_name cm_exit modify] in Hx.
      inversion Hx; subst; clear Hx.
      repeat split; simpl in *; congruence || lia.
    + cbv [cm_enter andthen get put ret] in He.
      inversion He; subst; clear He.
      apply Hbody in Hb as [[Hb1 Hb2] [Hb3 Hb4]].
      cbv [cm_exit modify] in Hx.
      inversion Hx; subst; clear Hx.
      repeat split; simpl in *; congruence || lia.
  - apply with_ok_inv in H as (x & s1 & s2 & He & Hb & Hx).
    cbv [bind_name cm_enter andthen get put ret] in He.
    inversion He; subst; clear He.
    apply Hbody in Hb as [[Hb1 Hb2] [Hb3 Hb4]].
    cbv [bind_name cm_exit modify] in Hx.
    inversion Hx; subst; clear Hx.
    repeat split; simpl in *; congruence || lia.
Qed.

Section functions_kept.

Variable construct :
  AbstractExpression -> option CompiledType -> C ResolvedExpression.

Lemma kept_construct_Self t : preserves kept (construct_Self t).
Proof.
  unfold construct_Self. apply kept_construct_with.
  unfold AbstractVariable_construct. kept_step.
Qed.

Lemma kept_env_get env_expr symbol_expr ru sq recursive :
  (forall t, preserves kept (construct env_expr t)) ->
  match symbol_expr with
  | KeyExpr e => forall t, preserves kept (construct e t)
  | _ => True
  end ->
  (forall t, preserves kept (construct recursive t)) ->
  preserves kept (env_get construct env_expr symbol_expr ru sq recursive).
Proof.
  intros Henv Hkey Hrec. unfold env_get.
  apply kept_andthen; [destruct (invalid_key symbol_expr); kept_step | intros _].
  apply kept_andthen.
  { destruct symbol_expr; simpl; [apply Hkey | kept_step | kept_step]. }
  intros sym. apply kept_andthen.
  { unfold GetSymbol_construct_static.
    destruct (bool_decide _); kept_step. }
  intros sym'. apply kept_andthen; [kept_step | intros _].
  apply kept_andthen; [apply Henv | intros env].
  apply kept_andthen.
  { destruct sq; [|kept_step].
    apply kept_andthen; [apply kept_construct_Self | intros from].
    kept_step. }
  intros p. apply kept_andthen; [apply Hrec | intros rec].
  destruct ru; repeat kept_step.
Qed.

Lemma kept_eval_in_env env_expr to_eval_expr :
  (forall t, preserves kept (construct env_expr t)) ->
  (forall t, preserves kept (construct to_eval_expr t)) ->
  preserves kept (eval_in_env construct env_expr to_eval_expr).
Proof.
  intros Henv Heval. unfold eval_in_env.
  apply kept_andthen; [apply Henv | intros env].
  apply (kept_within BindScope).
  apply kept_andthen; [apply Heval | intros r].
  unfold EnvBindExpr_init. repeat kept_step.
Qed.

End functions_kept.

(** The construction pass returns with the binding state it was
    started in. *)
Lemma kept_construct e : forall t, preserves kept (construct e t).
Proof.
  induction e using AbstractExpression_nested_ind; intros t;
    apply kept_construct_with; simpl.
  - destruct v; [apply kept_EnvVariable_construct | | |];
      unfold AbstractVariable_construct; kept_step.
  - kept_step.
  - apply kept_env_get; assumption.
  - apply kept_eval_in_env; assumption.
  - unfold env_orphan. apply kept_andthen; [apply IHe | intros r].
    kept_step.
  - apply kept_andthen; [| intros r; kept_step].
    induction H as [|x l Hx Hl IH]; simpl.
    + kept_step.
    + apply kept_andthen; [apply Hx | intros r].
      apply kept_andthen; [exact IH | intros rs]. kept_step.
  - unfold env_group. apply kept_andthen; [apply IHe | intros r].
    kept_step.
  - unfold is_visible_from.
    apply kept_andthen; [apply IHe2 | intros r].
    apply kept_andthen; [apply IHe1 | intros r']. kept_step.
  - unfold env_node. apply kept_andthen; [apply IHe | intros r].
    kept_step.
Qed.

Lemma same_binding_refl s : same_binding s s.
Proof. split; reflexivity. Qed.

Lemma same_binding_within {A} sc (body : C A) :
  preserves same_binding body -> preserves same_binding (within sc body).
Proof.
  intros Hbody s a s' H. destruct sc as [|prop|n]; simpl in H.
  - apply with_ok_inv in H as (x & s1 & s2 & He & Hb & Hx).
    cbv [bind cm_enter andthen get put ret] in He.
    inversion He; subst; clear He.
    apply Hbody in Hb as [Hb1 Hb2].
    cbv [bind cm_exit modify] in Hx.
    inversion Hx; subst; clear Hx.
    split; simpl in *; congruence.
  - apply with_ok_inv in H as (x & s1 & s2 & He & Hb & Hx).
    unfold bind_default in He, Hx.
    destruct (has_implicit_env prop).
    + cbv [yield_within bind_name cm_enter andthen get put ret] in He.
      inversion He; subst; clear He.
      apply Hbody in Hb as [Hb1 Hb2].
      cbv [yield_within bind_name cm_exit modify] in Hx.
      inversion Hx; subst; clear Hx.
      split; simpl in *; congruence.
    + cbv [cm_enter andthen get put ret] in He.
      inversion He; subst; clear He.
      apply Hbody in Hb as [Hb1 Hb2].
      cbv [cm_exit modify] in Hx.
      inversion Hx; subst; clear Hx.
      split; simpl in *; congruence.
  - apply with_ok_inv in H as (x & s1 & s2 & He & Hb & Hx).
    cbv [bind_name cm_enter andthen get put ret] in He.
    inversion He; subst; clear He.
    apply Hbody in Hb as [Hb1 Hb2].
    cbv [bind_name cm_exit modify] in Hx.
    inversion Hx; subst; clear Hx.
    split; simpl in *; congruence.
Qed.

Lemma same_binding_construct e t : preserves same_binding (construct e t).
Proof. intros s r s' H. apply kept_construct in H. apply H. Qed.

(** C1 (as amended).  Whenever a nest of [bind()], [bind_default(prop)]
    and [bind_name(name)] scopes is left by normal completion, the "is
    bound" flag and the current binding name are exactly what they
    were before the outermost scope was entered, provided the innermost
    body itself returns with the binding state it was started in (as
    every construction does, [same_binding_construct]). *)
Theorem scopes_restore_on_normal_exit :
  forall (A : Type) (scopes : list scope) (body : C A)
         (s : EnvState) (a : A) (s' : EnvState),
    preserves same_binding body ->
    nest scopes body s = (Ok a, s') ->
    same_binding s s'.
Proof.
  intros A scopes body s a s' Hbody. revert s a s'.
  change (preserves same_binding (nest scopes body)).
  induction scopes as [|sc scopes IH]; simpl.
  - exact Hbody.
  - apply same_binding_within. exact IH.
Qed.

Lemma scopes_restore_on_normal_exit_witness :
  let s := init (mkProperty false) in
  same_binding s s.
Proof.
  intros s.
  apply (scopes_restore_on_normal_exit
           ResolvedExpression
           [BindDefaultScope (mkProperty false); BindScope;
            BindNameScope (mkName "New_Env")]
           (construct Env None) s (VarExpr EnvV) s).
  - apply same_binding_construct.
  - vm_compute. reflexivity.
Defined.

(** C1 (as stated) fails when the scope is left by a fatal diagnostic:
    a type error raised while constructing inside [bind()], directly or
    as the dependent expression of [eval_in_env], leaves the flag set,
    and an unbound reference to [Env] raised inside
    [bind_default(prop)] leaves the flag cleared. *)
Lemma scopes_not_restored_on_abort :
  (let s := init (mkProperty false) in
   let r := with_ bind (construct (EnvOrphan (BoolLit true)) None) s in
   (exists msg, fst r = Raise (DiagnosticError msg)) /\
   _is_bound s = false /\ _is_bound (snd r) = true /\
   ~ same_binding s (snd r)) /\
  (let s := init (mkProperty false) in
   let r := construct (EvalInEnv EmptyEnv (EnvOrphan (BoolLit true))) None s in
   (exists msg, fst r = Raise (DiagnosticError msg)) /\
   _is_bound s = false /\ _is_bound (snd r) = true /\
   ~ same_binding s (snd r)) /\
  (let s := set_is_bound true (init (mkProperty false)) in
   let r := with_ (bind_default (mkProperty false)) (construct Env None) s in
   fst r = Raise (DiagnosticError no_implicit_env_msg) /\
   _is_bound s = true /\ _is_bound (snd r) = false /\
   ~ same_binding s (snd r)).
Proof.
  split; [|split]; cbv zeta.
  - split; [eexists; vm_compute; reflexivity|].
    split; [reflexivity|]. split; [reflexivity|].
    intros [H _]. vm_compute in H. discriminate H.
  - split; [eexists; vm_compute; reflexivity|].
    split; [reflexivity|]. split; [reflexivity|].
    intros [H _]. vm_compute in H. discriminate H.
  - split; [vm_compute; reflexivity|].
    split; [reflexivity|]. split; [reflexivity|].
    intros [H _]. vm_compute in H. discriminate H.
Qed.

Lemma EnvVariable_construct_unbound s :
  has_ambient_env s = false ->
  EnvVariable_construct s = (Raise (DiagnosticError no_implicit_env_msg), s).
Proof.
  intros H. cbv [EnvVariable_construct andthen get check_source_language].
  rewrite H. reflexivity.
Qed.

Lemma construct_Env_unbound s t :
  has_ambient_env s = false ->
  construct Env t s = (Raise (DiagnosticError no_implicit_env_msg), s).
Proof.
  intros H. unfold construct, construct_with, Env. simpl construct_method.
  erewrite andthen_raise; [reflexivity|].
  apply EnvVariable_construct_unbound. exact H.
Qed.

(** C4.  [has_ambient_env] holds exactly when the property under
    construction has an implicit environment parameter or [Env] is
    bound; when it does not hold, constructing a reference to [Env]
    raises the diagnostic that tells the author to bind an environment
    with [eval_in_env], leaves the store untouched and yields no
    resolved expression; when it holds the reference is resolved. *)
Theorem ambient_env_reference :
  forall (s : EnvState) (t : option CompiledType),
    (has_ambient_env s = true <->
     has_implicit_env (property s) = true \/ is_bound s = true) /\
    (has_ambient_env s = false ->
     EnvVariable_construct s
       = (Raise (DiagnosticError no_implicit_env_msg), s) /\
     construct Env t s
       = (Raise (DiagnosticError no_implicit_env_msg), s)) /\
    (has_ambient_env s = true ->
     EnvVariable_construct s = (Ok (VarExpr EnvV), s)) /\
    no_implicit_env_msg
      = "This property has no implicit environment parameter: please use the eval_in_env construct to bind an environment first.".
Proof.
  intros s t. split; [|split; [|split]].
  - unfold has_ambient_env. rewrite orb_true_iff. reflexivity.
  - intros H. split.
    + apply EnvVariable_construct_unbound. exact H.
    + apply construct_Env_unbound. exact H.
  - intros H.
    cbv [EnvVariable_construct andthen get check_source_language].
    rewrite H. reflexivity.
  - reflexivity.
Qed.

Lemma ambient_env_reference_witness :
  construct Env (Some LexicalEnvType) (init (mkProperty false))
  = (Raise (DiagnosticError no_implicit_env_msg), init (mkProperty false)).
Proof.
  apply (ambient_env_reference (init (mkProperty false))
                               (Some LexicalEnvType)).
  reflexivity.
Defined.

(** *** Rendering *)

Lemma ResolvedExpression_nested_ind (P : ResolvedExpression -> Prop) :
  (forall v, P (VarExpr v)) ->
  (forall b, P (LiteralExpr b)) ->
  (forall s, P (SymbolLiteralExpr s)) ->
  (forall t, P t -> P (GetSymbolExpr t)) ->
  (forall tpl ty ops rv, Forall P ops -> P (BasicExpr tpl ty ops rv)) ->
  (forall n ty ops rv, Forall P ops -> P (BuiltinCallExpr n ty ops rv)) ->
  (forall l ty, Forall P l -> P (ArrayExpr l ty)) ->
  (forall a b v, P a -> P b -> P (EnvBindExpr a b v)) ->
  forall e, P e.
Proof.
  intros Hvar Hlit Hsym Hget Hbasic Hcall Harr Hbind.
  fix IH 1.
  assert (forall l, Forall P l) as IHl.
  { fix IHl 1. intros [|x l'].
    - constructor.
    - constructor; [apply IH | apply IHl]. }
  intros [v|b|s|t|tpl ty ops rv|n ty ops rv|l ty|a b v].
  - apply Hvar.
  - apply Hlit.
  - apply Hsym.
  - apply Hget, IH.
  - apply Hbasic, IHl.
  - apply Hcall, IHl.
  - apply Harr, IHl.
  - apply Hbind; apply IH.
Qed.

Lemma set_name_restore n s : set_name (_name s) (set_name n s) = s.
Proof. destruct s. reflexivity. Qed.

Lemma reads_only_with_bind_name {A} n (body : C A) :
  reads_only body -> reads_only (with_ (bind_name n) body).
Proof.
  intros Hbody s. destruct (Hbody (set_name n s)) as [a Ha].
  exists a. cbv [with_ bind_name cm_enter cm_exit andthen get put ret modify].
  rewrite Ha, set_name_restore. reflexivity.
Qed.

Section rendering_facts.

Variable format_pre :
  ResolvedExpression -> list string -> list string -> string.
Variable format_expr : ResolvedExpression -> list string -> string.

#[local] Abbreviation render := (render format_pre format_expr).
#[local] Abbreviation rendered := (rendered format_pre format_expr).

(** Rendering always returns, with the binding name it was started
    with. *)
Lemma reads_only_render e : forall pre, reads_only (render pre e).
Proof.
  assert (forall (l : list ResolvedExpression) (e : ResolvedExpression)
                 (pre : bool),
             Forall (fun x => forall pre, reads_only (render pre x)) l ->
             reads_only
               (if pre
                then (ps <- map_m (render true) l;;
                      es <- map_m (render false) l;;
                      ret (format_pre e ps es))
                else (es <- map_m (render false) l;;
                      ret (format_expr e es)))) as Hops.
  { intros l e' pre Hl.
    assert (forall p, reads_only (map_m (render p) l)) as Hm.
    { intros p. apply reads_only_map_m.
      eapply Forall_impl; [exact Hl | intros x Hx; apply Hx]. }
    destruct pre.
    - apply reads_only_andthen; [apply Hm | intros ps].
      apply reads_only_andthen; [apply Hm | intros es].
      apply reads_only_ret.
    - apply reads_only_andthen; [apply Hm | intros es].
      apply reads_only_ret. }
  induction e using ResolvedExpression_nested_ind; intros pre.
  - destruct pre; simpl; [apply reads_only_ret|].
    destruct v; simpl; try apply reads_only_ret.
    intros st. eexists. reflexivity.
  - destruct pre; intros st; eexists; reflexivity.
  - destruct pre; intros st; eexists; reflexivity.
  - apply (Hops [e] (GetSymbolExpr e) pre). constructor; [exact IHe|constructor].
  - simpl. apply Hops. exact H.
  - simpl. apply Hops. exact H.
  - simpl. apply Hops. exact H.
  - destruct pre; simpl.
    + unfold EnvBindExpr_render_pre.
      apply reads_only_andthen; [apply IHe1 | intros p].
      apply reads_only_andthen; [apply IHe1 | intros x].
      apply reads_only_with_bind_name.
      apply reads_only_andthen; [apply IHe2 | intros q].
      apply reads_only_ret.
    + unfold EnvBindExpr_render_expr.
      apply reads_only_with_bind_name. apply IHe2.
Qed.

Lemma render_rendered pre e s : render pre e s = (Ok (rendered pre e s), s).
Proof.
  unfold envs.rendered. destruct (reads_only_render e pre s) as [r ->].
  reflexivity.
Qed.

(** The dependent expression is rendered under the name of the
    variable that holds the bound environment. *)
Lemma EnvBindExpr_render_expr_eq env_expr to_eval_expr env_var s :
  render_expr format_pre format_expr
              (EnvBindExpr env_expr to_eval_expr env_var) s
  = (Ok (rendered false to_eval_expr (set_name (lv_name env_var) s)), s).
Proof.
  unfold render_expr. simpl. unfold EnvBindExpr_render_expr.
  cbv [with_ bind_name cm_enter cm_exit andthen get put ret modify].
  rewrite render_rendered, set_name_restore. reflexivity.
Qed.

(** The environment operand is rendered, and assigned to that
    variable, under the name in force outside. *)
Lemma EnvBindExpr_render_pre_eq env_expr to_eval_expr env_var s :
  render_pre format_pre format_expr
             (EnvBindExpr env_expr to_eval_expr env_var) s
  = (Ok ((rendered true env_expr s +:+ nl +:+
          camel_with_underscores (lv_name env_var) +:+ " := " +:+
          rendered false env_expr s +:+ ";" +:+ nl +:+
          "Inc_Ref (" +:+ camel_with_underscores (lv_name env_var)
          +:+ ");") +:+ nl +:+
         rendered true to_eval_expr (set_name (lv_name env_var) s)), s).
Proof.
  unfold render_pre. simpl. unfold EnvBindExpr_render_pre.
  rewrite (andthen_ok _ _ _ _ _ (render_rendered true env_expr s)).
  rewrite (andthen_ok _ _ _ _ _ (render_rendered false env_expr s)).
  cbv [with_ bind_name cm_enter cm_exit andthen get put ret modify].
  rewrite render_rendered, set_name_restore.
  reflexivity.
Qed.

Lemma rendered_EnvBindExpr env_expr to_eval_expr env_var s :
  rendered false (EnvBindExpr env_expr to_eval_expr env_var) s
  = rendered false to_eval_expr (set_name (lv_name env_var) s).
Proof.
  unfold envs.rendered at 1.
  change (render false (EnvBindExpr env_expr to_eval_expr env_var) s)
    with (render_expr format_pre format_expr
                      (EnvBindExpr env_expr to_eval_expr env_var) s).
  rewrite EnvBindExpr_render_expr_eq. reflexivity.
Qed.

Lemma rendered_Env s :
  rendered false (VarExpr EnvV) s = camel_with_underscores (_name s).
Proof. reflexivity. Qed.

End rendering_facts.

(** *** eval_in_env *)

Lemma append_empty_r (s : string) : s +:+ EmptyString = s.
Proof.
  induction s as [|c s IH]; [reflexivity|].
  change (String c (s +:+ EmptyString) = String c s). congruence.
Qed.

(** [LocalVars.create] never hands out the same name twice. *)
Lemma fresh_name_inj base n m :
  fresh_name base n = fresh_name base m -> n = m.
Proof.
  destruct n as [|n], m as [|m]; simpl; intros H; inversion H as [H'].
  - reflexivity.
  - rewrite <- (append_empty_r base) in H' at 1.
    apply String.app_inj in H'. discriminate H'.
  - rewrite <- (append_empty_r base) in H' at 2.
    apply String.app_inj in H'. discriminate H'.
  - apply String.app_inj in H'. injection H' as H'.
    apply pretty_nat_inj in H'. exact H'.
Qed.

(** The steps of a successful [eval_in_env], in order. *)
Lemma eval_in_env_inv E X t s r s' :
  construct (EvalInEnv E X) t s = (Ok r, s') ->
  exists rE s1 rX s2,
    construct E (Some LexicalEnvType) s = (Ok rE, s1) /\
    construct X None (set_is_bound true s1) = (Ok rX, s2) /\
    r = EnvBindExpr rE rX (new_env_var s2) /\
    s' = set_is_bound (_is_bound s1)
           (set_local_vars (local_vars s2 ++ [new_env_var s2]) s2).
Proof.
  intros H. unfold construct, construct_with in H.
  apply andthen_ok_inv in H as (r0 & sa & H0 & Hchk).
  simpl construct_method in H0. unfold eval_in_env in H0.
  apply andthen_ok_inv in H0 as (rE & s1 & HE & Hw).
  apply with_ok_inv in Hw as (x & sb & sc & He & Hb & Hx).
  cbv [bind cm_enter andthen get put ret] in He.
  inversion He; subst x sb; clear He.
  apply andthen_ok_inv in Hb as (rX & s2 & HX & Hinit).
  cbv [EnvBindExpr_init vars_create andthen get put ret] in Hinit.
  inversion Hinit; subst r0 sc; clear Hinit.
  cbv [bind cm_exit modify] in Hx. inversion Hx; subst sa; clear Hx.
  assert (r = EnvBindExpr rE rX (new_env_var s2) /\
          s' = set_is_bound (_is_bound s1)
                 (set_local_vars (local_vars s2 ++ [new_env_var s2]) s2))
    as [-> ->].
  { destruct t as [t|].
    - apply andthen_ok_inv in Hchk as (u & sd & Hc & Hr).
      apply check_ok_inv in Hc as [_ ->].
      inversion Hr. split; reflexivity.
    - inversion Hchk. split; reflexivity. }
  exists rE, s1, rX, s2. repeat split; assumption.
Qed.

(** C3.  A successful [eval_in_env(E, X)] has (1) constructed [E] in
    the store of the caller, outside the new binding, so that a
    reference to [Env] in [E] needs the outer binding; (2) then
    constructed [X] with [Env] marked bound, so that a reference to
    [Env] in [X] is legal whatever the outer state; (3) returned the
    bind node of the two; (4) left the binding state as the caller had
    it.  When the node is rendered, [X] is rendered under the name of
    the variable assigned from [E], and [E] under the name in force
    outside: a reference to [Env] that is [X] renders as that variable,
    and under nesting as the variable of the innermost bind node, which
    differs from the outer one. *)
Theorem eval_in_env_shadowing :
  forall (E X : AbstractExpression) (t : option CompiledType)
         (s : EnvState) (r : ResolvedExpression) (s' : EnvState),
    construct (EvalInEnv E X) t s = (Ok r, s') ->
    exists rE s1 rX s2 env_var,
      construct E (Some LexicalEnvType) s = (Ok rE, s1) /\
      (E = Env -> has_ambient_env s = true) /\
      same_binding s s1 /\
      construct X None (set_is_bound true s1) = (Ok rX, s2) /\
      has_ambient_env (set_is_bound true s1) = true /\
      r = EnvBindExpr rE rX env_var /\
      same_binding s s' /\
      (forall format_pre format_expr s0,
          render_expr format_pre format_expr r s0
          = (Ok (rendered format_pre format_expr false rX
                          (set_name (lv_name env_var) s0)), s0) /\
          render_pre format_pre format_expr r s0
          = (Ok ((rendered format_pre format_expr true rE s0 +:+ nl +:+
                  camel_with_underscores (lv_name env_var) +:+ " := " +:+
                  rendered format_pre format_expr false rE s0 +:+ ";"
                  +:+ nl +:+
                  "Inc_Ref (" +:+ camel_with_underscores (lv_name env_var)
                  +:+ ");") +:+ nl +:+
                 rendered format_pre format_expr true rX
                          (set_name (lv_name env_var) s0)), s0)) /\
      (X = Env ->
       forall format_pre format_expr s0,
         render_expr format_pre format_expr r s0
         = (Ok (camel_with_underscores (lv_name env_var)), s0)) /\
      (forall E2, X = EvalInEnv E2 Env ->
         exists rE2 inner_var,
           rX = EnvBindExpr rE2 (VarExpr EnvV) inner_var /\
           lv_name inner_var <> lv_name env_var /\
           forall format_pre format_expr s0,
             render_expr format_pre format_expr r s0
             = (Ok (camel_with_underscores (lv_name inner_var)), s0)).
Proof.
  intros E X t s r s' H.
  apply eval_in_env_inv in H as (rE & s1 & rX & s2 & HE & HX & -> & ->).
  pose proof (kept_construct _ _ _ _ _ HE) as [[Hb1 Hn1] [Hp1 Hl1]].
  pose proof (kept_construct _ _ _ _ _ HX) as [[Hb2 Hn2] [Hp2 Hl2]].
  simpl in Hb2, Hn2, Hp2, Hl2.
  exists rE, s1, rX, s2, (new_env_var s2).
  split; [exact HE|]. split.
  { intros ->. destruct (has_ambient_env s) eqn:Ha; [reflexivity|].
    rewrite (construct_Env_unbound _ _ Ha) in HE. discriminate HE. }
  split; [split; assumption|]. split; [exact HX|].
  split; [unfold has_ambient_env; simpl; apply orb_true_r|].
  split; [reflexivity|].
  split; [split; simpl; congruence|].
  split.
  { intros fp fe s0. split.
    - apply EnvBindExpr_render_expr_eq.
    - apply EnvBindExpr_render_pre_eq. }
  split.
  { intros -> fp fe s0.
    assert (rX = VarExpr EnvV) as ->.
    { cbv [construct construct_with Env] in HX. simpl in HX.
      cbv [EnvVariable_construct andthen get check_source_language
           has_ambient_env is_bound set_is_bound _is_bound
           AbstractVariable_construct ret] in HX.
      rewrite orb_true_r in HX. inversion HX. reflexivity. }
    rewrite EnvBindExpr_render_expr_eq, rendered_Env. reflexivity. }
  intros E2 ->.
  apply eval_in_env_inv in HX
    as (rE2 & s3 & rX2 & s4 & HE2 & HX2 & -> & Hs2).
  assert (rX2 = VarExpr EnvV) as ->.
  { cbv [construct construct_with Env] in HX2. simpl in HX2.
    cbv [EnvVariable_construct andthen get check_source_language
         has_ambient_env is_bound set_is_bound _is_bound
         AbstractVariable_construct ret] in HX2.
    rewrite orb_true_r in HX2. inversion HX2. reflexivity. }
  exists rE2, (new_env_var s4). split; [reflexivity|]. split.
  - unfold new_env_var. simpl. intros Heq.
    apply fresh_name_inj in Heq. subst s2. simpl in Heq.
    rewrite length_app in Heq. simpl in Heq. lia.
  - intros fp fe s0. rewrite EnvBindExpr_render_expr_eq.
    rewrite rendered_EnvBindExpr, rendered_Env. reflexivity.
Qed.

Lemma eval_in_env_shadowing_witness :
  let s := init (mkProperty false) in
  let v := mkLocalVar (mkName "New_Env") LexicalEnvType in
  let r := EnvBindExpr (VarExpr EmptyEnvV) (VarExpr EnvV) v in
  let s' := mkState false default_name (mkProperty false) [v] [] in
  construct (EvalInEnv EmptyEnv Env) None s = (Ok r, s') /\
  same_binding s s'.
Proof.
  intros s v r s'.
  assert (construct (EvalInEnv EmptyEnv Env) None s = (Ok r, s')) as H
    by (vm_compute; reflexivity).
  split; [exact H|].
  destruct (eval_in_env_shadowing EmptyEnv Env None s r s' H)
    as (rE & s1 & rX & s2 & env_var & _ & _ & _ & _ & _ & _ & Hsame & _).
  exact Hsame.
Defined.

(** *** env_get *)

Lemma valid_key_inv (key : key_arg AbstractExpression) (s : EnvState) u s' :
  match invalid_key key return C unit with
  | Some repr =>
      check_source_language
        false ("Invalid key argument for Env.get: " +:+ repr)
  | None => ret tt
  end s = (Ok u, s') ->
  s' = s /\ invalid_key key = None.
Proof.
  destruct (invalid_key key) as [repr|]; intros H.
  - discriminate H.
  - inversion H. split; reflexivity.
Qed.

Lemma construct_expected_type e t s r s' :
  construct e (Some t) s = (Ok r, s') -> type r = t.
Proof.
  unfold construct, construct_with. intros H.
  apply andthen_ok_inv in H as (r0 & s0 & _ & H).
  apply andthen_ok_inv in H as (u & s1 & Hc & H).
  apply check_ok_inv in Hc as [Hm _]. inversion H; subst.
  unfold matches in Hm. apply bool_decide_eq_true in Hm. exact Hm.
Qed.

Lemma construct_with_inv method e t s r s' :
  construct_with method e t s = (Ok r, s') -> method e s = (Ok r, s').
Proof.
  unfold construct_with. intros H.
  apply andthen_ok_inv in H as (r0 & s0 & Hm & H). destruct t as [t|].
  - apply andthen_ok_inv in H as (u & s1 & Hc & H).
    apply check_ok_inv in Hc as [_ ->]. inversion H; subst. exact Hm.
  - inversion H; subst. exact Hm.
Qed.

Lemma construct_None_run e s r s' :
  construct_method e s = (Ok r, s') -> construct e None s = (Ok r, s').
Proof.
  intros H. unfold construct, construct_with.
  rewrite (andthen_ok _ _ _ _ _ H). reflexivity.
Qed.

Lemma env_get_inv env_expr key ru sq recursive s r s' :
  construct_method (EnvGet env_expr key ru sq recursive) s = (Ok r, s') ->
  exists rkey renv rrec s1 s2 s3,
    invalid_key key = None /\
    construct_key construct key s = (Ok rkey, s1) /\
    (type rkey = Token \/ type rkey = Symbol) /\
    construct env_expr (Some LexicalEnvType) s1 = (Ok renv, s2) /\
    construct recursive (Some BoolType) s2 = (Ok rrec, s3).
Proof.
  intros H0. simpl construct_method in H0. unfold env_get in H0.
  apply andthen_ok_inv in H0 as (u & sa & Hchk & H0).
  apply valid_key_inv in Hchk as [-> Hvalid].
  apply andthen_ok_inv in H0 as (rkey & s1 & Hkey & H0).
  apply andthen_ok_inv in H0 as (sym & sb & Hsym & H0).
  apply andthen_ok_inv in H0 as (u' & sc & Htype & H0).
  apply check_ok_inv in Htype as [Htype ->].
  apply bool_decide_eq_true in Htype.
  apply andthen_ok_inv in H0 as (renv & s2 & Henv & H0).
  apply andthen_ok_inv in H0 as (p & sd & Hp & H0).
  apply andthen_ok_inv in H0 as (rrec & s3 & Hrec & H0).
  assert (sym = (if bool_decide (type rkey = Token) then GetSymbolExpr rkey
                 else rkey) /\ sb = s1) as [-> ->].
  { unfold GetSymbol_construct_static in Hsym.
    destruct (bool_decide (type rkey = Token));
      inversion Hsym; split; reflexivity. }
  assert (sd = s2) as ->.
  { destruct sq.
    - apply andthen_ok_inv in Hp as (from & se & Hfrom & Hp).
      cbv [construct_Self construct_with andthen AbstractVariable_construct
           ret check_source_language] in Hfrom.
      cbn in Hfrom. inversion Hfrom; subst. inversion Hp. reflexivity.
    - inversion Hp. reflexivity. }
  exists rkey, renv, rrec, s1, s2, s3.
  split; [exact Hvalid|]. split; [exact Hkey|]. split.
  { destruct (bool_decide (type rkey = Token)) eqn:Hb.
    - left. apply bool_decide_eq_true in Hb. exact Hb.
    - right. exact Htype. }
  split; [exact Henv | exact Hrec].
Qed.

Lemma env_get_run env_expr key (ru sq : bool) recursive s rkey s1 renv s2
    rrec s3 :
  invalid_key key = None ->
  construct_key construct key s = (Ok rkey, s1) ->
  (type rkey = Token \/ type rkey = Symbol) ->
  construct env_expr (Some LexicalEnvType) s1 = (Ok renv, s2) ->
  construct recursive (Some BoolType) s2 = (Ok rrec, s3) ->
  let array_expr :=
    if sq
    then "AST_Envs.Get  (Self      => {},   Key => {},   From => {},   Recursive => {})"
    else "AST_Envs.Get (Self => {}, Key => {}, Recursive => {})" in
  let operands :=
    [renv;
     if bool_decide (type rkey = Token) then GetSymbolExpr rkey else rkey]
      ++ (if sq then [VarExpr SelfV] else []) ++ [rrec] in
  construct_method (EnvGet env_expr key ru sq recursive) s
  = if ru
    then (Ok (BasicExpr ("Get (" +:+ array_expr +:+ ", 0)")
                        (env_el root_node) operands
                        (Some "Env_Get_Result")), s3)
    else (Ok (BasicExpr ("Create (" +:+ array_expr +:+ ")")
                        (array_type (env_el root_node)) operands
                        (Some "Env_Get_Result")),
          set_array_types (array_types s3 ++ [array_type (env_el root_node)])
                          s3).
Proof.
  intros Hvalid Hkey Htype Henv Hrec array_expr operands.
  simpl construct_method. unfold env_get. rewrite Hvalid.
  erewrite andthen_ok; [|reflexivity].
  fold construct. erewrite andthen_ok; [|exact Hkey].
  assert ((if bool_decide (type rkey = Token)
           then GetSymbol_construct_static rkey else ret rkey) s1
          = (Ok (if bool_decide (type rkey = Token) then GetSymbolExpr rkey
                 else rkey), s1)) as Hsym.
  { destruct (bool_decide (type rkey = Token)); reflexivity. }
  erewrite andthen_ok; [|exact Hsym].
  assert (bool_decide
            (type (if bool_decide (type rkey = Token) then GetSymbolExpr rkey
                   else rkey) = Symbol) = true) as ->.
  { destruct (bool_decide (type rkey = Token)) eqn:Hb.
    - reflexivity.
    - apply bool_decide_eq_true.
      destruct Htype as [Ht|Ht]; [|exact Ht].
      apply bool_decide_eq_false in Hb. contradiction. }
  erewrite andthen_ok; [|reflexivity].
  erewrite andthen_ok; [|exact Henv].
  subst array_expr operands.
  destruct sq.
  - erewrite andthen_ok; [|reflexivity]. cbn [fst snd].
    erewrite andthen_ok; [|exact Hrec].
    destruct ru; reflexivity.
  - erewrite andthen_ok; [|reflexivity]. cbn [fst snd].
    erewrite andthen_ok; [|exact Hrec].
    destruct ru; reflexivity.
Qed.

(** C8.  A lookup [get(env, key)] that constructs is a [BasicExpr]
    whose operands are the resolved environment, of the environment
    type, the resolved key, of the symbol type (a token key converted),
    [Self] for a sequential lookup, and the resolved [recursive] flag.
    Without [resolve_unique] it is [Create (A)], where [A] is the
    [AST_Envs.Get] call on these operands, and its static type is the
    array of lookup results.  With [resolve_unique] it is [Get (A, 0)],
    the first element of the array of that same call on those same
    operands -- those of the lookup without [resolve_unique] of the
    same arguments in the same state -- and its static type is a single
    lookup result; no check on the number of results is made. *)
Theorem env_get_static_type :
  forall (env_expr : AbstractExpression)
         (symbol_expr : key_arg AbstractExpression)
         (resolve_unique sequential : bool) (recursive : AbstractExpression)
         (t : option CompiledType) (s : EnvState)
         (r : ResolvedExpression) (s' : EnvState),
    construct (EnvGet env_expr symbol_expr resolve_unique sequential
                      recursive) t s = (Ok r, s') ->
    let array_expr :=
      if sequential
      then "AST_Envs.Get  (Self      => {},   Key => {},   From => {},   Recursive => {})"
      else "AST_Envs.Get (Self => {}, Key => {}, Recursive => {})" in
    exists rkey renv rrec s1 s2 s3,
      match symbol_expr with
      | KeyExpr k => construct k None s = (Ok rkey, s1)
      | KeyStr str => rkey = SymbolLiteralExpr str /\ s1 = s
      | KeyOther _ => False
      end /\
      construct env_expr (Some LexicalEnvType) s1 = (Ok renv, s2) /\
      construct recursive (Some BoolType) s2 = (Ok rrec, s3) /\
      let sym := if bool_decide (type rkey = Token) then GetSymbolExpr rkey
                 else rkey in
      let operands :=
        [renv; sym] ++ (if sequential then [VarExpr SelfV] else [])
                    ++ [rrec] in
      let array_node :=
        BasicExpr ("Create (" +:+ array_expr +:+ ")")
                  (array_type (env_el root_node)) operands
                  (Some "Env_Get_Result") in
      let first_node :=
        BasicExpr ("Get (" +:+ array_expr +:+ ", 0)")
                  (env_el root_node) operands (Some "Env_Get_Result") in
      type renv = LexicalEnvType /\ type sym = Symbol /\
      type rrec = BoolType /\
      construct (EnvGet env_expr symbol_expr false sequential recursive)
                None s
      = (Ok array_node,
         set_array_types (array_types s3 ++ [array_type (env_el root_node)])
                         s3) /\
      construct (EnvGet env_expr symbol_expr true sequential recursive)
                None s
      = (Ok first_node, s3) /\
      r = (if resolve_unique then first_node else array_node) /\
      type r = (if resolve_unique then env_el root_node
                else array_type (env_el root_node)).
Proof.
  intros env_expr symbol_expr ru sq recursive t s r s' H array_expr.
  apply construct_with_inv in H.
  destruct (env_get_inv _ _ _ _ _ _ _ _ H)
    as (rkey & renv & rrec & s1 & s2 & s3
        & Hvalid & Hkey & Htype & Henv & Hrec).
  exists rkey, renv, rrec, s1, s2, s3.
  split.
  { destruct symbol_expr as [k|str|repr]; cbn in Hkey.
    - exact Hkey.
    - inversion Hkey; subst. split; reflexivity.
    - discriminate Hvalid. }
  split; [exact Henv|]. split; [exact Hrec|].
  intros sym operands array_node first_node.
  split; [exact (construct_expected_type _ _ _ _ _ Henv)|].
  split.
  { subst sym. destruct (bool_decide (type rkey = Token)) eqn:Hb.
    - reflexivity.
    - destruct Htype as [Ht|Ht]; [|exact Ht].
      apply bool_decide_eq_false in Hb. contradiction. }
  split; [exact (construct_expected_type _ _ _ _ _ Hrec)|].
  split.
  { apply construct_None_run.
    exact (env_get_run env_expr symbol_expr false sq recursive s
                       rkey s1 renv s2 rrec s3
                       Hvalid Hkey Htype Henv Hrec). }
  split.
  { apply construct_None_run.
    exact (env_get_run env_expr symbol_expr true sq recursive s
                       rkey s1 renv s2 rrec s3
                       Hvalid Hkey Htype Henv Hrec). }
  pose proof (env_get_run env_expr symbol_expr ru sq recursive s
                          rkey s1 renv s2 rrec s3
                          Hvalid Hkey Htype Henv Hrec) as Hrun.
  cbv zeta in Hrun. rewrite H in Hrun.
  destruct ru; inversion Hrun; split; reflexivity.
Qed.

Lemma env_get_static_type_witness :
  let s := init (mkProperty false) in
  let array_expr := "AST_Envs.Get (Self => {}, Key => {}, Recursive => {})" in
  let operands :=
    [VarExpr EmptyEnvV; SymbolLiteralExpr "foo"; LiteralExpr true] in
  (exists s',
      construct (EnvGet EmptyEnv (KeyStr "foo") false false (BoolLit true))
                None s
      = (Ok (BasicExpr ("Create (" +:+ array_expr +:+ ")")
                       (array_type (env_el root_node)) operands
                       (Some "Env_Get_Result")), s')) /\
  (exists s',
      construct (EnvGet EmptyEnv (KeyStr "foo") true false (BoolLit true))
                None s
      = (Ok (BasicExpr ("Get (" +:+ array_expr +:+ ", 0)")
                       (env_el root_node) operands
                       (Some "Env_Get_Result")), s')).
Proof.
  intros s array_expr operands.
  destruct (env_get_static_type
              EmptyEnv (KeyStr "foo") true false (BoolLit true) None s
              _ _ eq_refl)
    as (rkey & renv & rrec & s1 & s2 & s3
        & [-> ->] & Henv & Hrec & _ & _ & _ & Harray & Hfirst & _).
  vm_compute in Henv. inversion Henv; subst renv s2.
  vm_compute in Hrec. inversion Hrec; subst rrec s3.
  split; eexists; [exact Harray | exact Hfirst].
Defined.

(** *** Static types *)

Lemma returns_with_ret {S A} (P : A -> Prop) (a : A) :
  P a -> returns_with (S:=S) P (ret a).
Proof. intros Ha s a' s' H. inversion H; subst. exact Ha. Qed.

Lemma returns_with_andthen {S A B} (Q : A -> Prop) (P : B -> Prop)
    (c : M S A) (k : A -> M S B) :
  returns_with Q c -> (forall a, Q a -> returns_with P (k a)) ->
  returns_with P (andthen c k).
Proof.
  intros Hc Hk s b s' H. apply andthen_ok_inv in H as (a & s1 & H1 & H2).
  eapply Hk; [eapply Hc; exact H1 | exact H2].
Qed.

Lemma returns_with_then {S A B} (P : B -> Prop)
    (c : M S A) (k : A -> M S B) :
  (forall a, returns_with P (k a)) -> returns_with P (andthen c k).
Proof.
  intros Hk. apply (returns_with_andthen (fun _ => True)).
  - intros s a s' _. exact I.
  - intros a _. apply Hk.
Qed.

Lemma returns_with_with {S X A} (P : A -> Prop)
    (cm : ContextManager S X) (body : M S A) :
  returns_with P body -> returns_with P (with_ cm body).
Proof.
  intros Hb s a s' H. apply with_ok_inv in H as (x & s1 & s2 & _ & H & _).
  eapply Hb. exact H.
Qed.

Lemma returns_with_construct_with (P : ResolvedExpression -> Prop) method e t :
  returns_with P (method e) -> returns_with P (construct_with method e t).
Proof.
  intros H. unfold construct_with.
  apply (returns_with_andthen P); [exact H | intros r Hr].
  destruct t; [apply returns_with_then; intros _|];
    apply returns_with_ret; exact Hr.
Qed.

Lemma construct_method_static_type e :
  returns_with (fun r => type r = static_type e) (construct_method e).
Proof.
  induction e using AbstractExpression_nested_ind; simpl construct_method.
  - destruct v; try (apply returns_with_ret; reflexivity).
    unfold EnvVariable_construct.
    do 2 (apply returns_with_then; intros ?).
    apply returns_with_ret. reflexivity.
  - apply returns_with_ret. reflexivity.
  - unfold env_get. do 7 (apply returns_with_then; intros ?).
    destruct ru; [|apply returns_with_then; intros ?];
      apply returns_with_ret; reflexivity.
  - unfold eval_in_env. apply returns_with_then; intros rE.
    apply returns_with_with.
    apply (returns_with_andthen (fun r => type r = static_type e2)).
    + apply returns_with_construct_with. exact IHe2.
    + intros rX HrX. unfold EnvBindExpr_init.
      apply returns_with_then; intros v. apply returns_with_ret. exact HrX.
  - unfold env_orphan. apply returns_with_then; intros ?.
    apply returns_with_ret. reflexivity.
  - apply returns_with_then; intros ?. apply returns_with_ret. reflexivity.
  - unfold env_group. apply returns_with_then; intros ?.
    apply returns_with_ret. reflexivity.
  - unfold is_visible_from. do 2 (apply returns_with_then; intros ?).
    apply returns_with_ret. reflexivity.
  - unfold env_node. apply returns_with_then; intros ?.
    apply returns_with_ret. reflexivity.
Qed.

(** The static type of a resolved expression is fixed by the abstract
    expression alone, whatever the binding state, the property or the
    local variables at construction: a lookup is an array of lookup
    results or, with [resolve_unique], one lookup result;
    [eval_in_env] has the type of its dependent expression; [orphan]
    and the two [group] forms are environments, [is_visible_from] a
    boolean and [node] the root node type.  A construction with an
    expected type can only succeed for that type. *)
Theorem construct_static_type :
  forall (e : AbstractExpression) (t : option CompiledType)
         (s : EnvState) (r : ResolvedExpression) (s' : EnvState),
    construct e t s = (Ok r, s') ->
    type r = static_type e /\
    match t with Some expected => static_type e = expected | None => True end.
Proof.
  intros e t s r s' H.
  assert (type r = static_type e) as Ht.
  { apply (returns_with_construct_with
             (fun r => type r = static_type e) construct_method e t
             (construct_method_static_type e) s r s' H). }
  split; [exact Ht|]. destruct t as [expected|]; [|exact I].
  apply construct_expected_type in H. congruence.
Qed.

Lemma construct_static_type_witness :
  let e := EvalInEnv EmptyEnv
                     (EnvGet Env (KeyStr "foo") true false (BoolLit true)) in
  exists r s',
    construct e (Some (env_el root_node)) (init (mkProperty false))
    = (Ok r, s') /\
    type r = env_el root_node.
Proof.
  intros e. eexists _, _. split; [vm_compute; reflexivity|].
  edestruct (construct_static_type e (Some (env_el root_node))
                                   (init (mkProperty false)))
    as [Ht _]; [vm_compute; reflexivity | exact Ht].
Defined.

(** *** Lookups: the key *)

(** The key of a lookup is dealt with before the environment operand is
    looked at, whatever that operand is.  A key that is neither an
    expression nor a string -- a Python [bool] is such a key -- is
    refused with the "invalid key argument" diagnostic, which has its
    [repr], and nothing is constructed; a key expression that fails to
    construct fails the lookup in the same way; and a key expression
    that resolves to a type other than token or symbol is refused with
    the diagnostic that names that type. *)
Theorem env_get_key_errors :
  forall (env_expr : AbstractExpression) (ru sq : bool)
         (recursive : AbstractExpression) (t : option CompiledType)
         (s : EnvState),
    (forall key repr,
        invalid_key key = Some repr ->
        construct (EnvGet env_expr key ru sq recursive) t s
        = (Raise (DiagnosticError
                    ("Invalid key argument for Env.get: " +:+ repr)), s)) /\
    (forall k e s1,
        construct k None s = (Raise e, s1) ->
        construct (EnvGet env_expr (KeyExpr k) ru sq recursive) t s
        = (Raise e, s1)) /\
    (forall k rk s1,
        invalid_key (KeyExpr k) = None ->
        construct k None s = (Ok rk, s1) ->
        type rk <> Token -> type rk <> Symbol ->
        construct (EnvGet env_expr (KeyExpr k) ru sq recursive) t s
        = (Raise (DiagnosticError
                    ("Wrong type for symbol expr: " +:+ type_name (type rk))),
           s1)).
Proof.
  intros env_expr ru sq recursive t s. repeat split.
  - intros key repr Hkey. unfold construct at 1, construct_with.
    erewrite andthen_raise; [reflexivity|].
    simpl construct_method. unfold env_get. rewrite Hkey.
    erewrite andthen_raise; reflexivity.
  - intros k e s1 Hk. unfold construct at 1, construct_with.
    erewrite andthen_raise; [reflexivity|].
    simpl construct_method. unfold env_get, construct_key.
    assert (invalid_key (KeyExpr k) = None) as ->.
    { destruct k; try reflexivity. vm_compute in Hk. discriminate Hk. }
    erewrite andthen_ok; [|reflexivity].
    erewrite andthen_raise; [reflexivity | exact Hk].
  - intros k rk s1 Hvalid Hk Htok Hsym.
    unfold construct at 1, construct_with.
    erewrite andthen_raise; [reflexivity|].
    simpl construct_method. unfold env_get, construct_key.
    rewrite Hvalid.
    erewrite andthen_ok; [|reflexivity].
    erewrite andthen_ok; [|exact Hk].
    rewrite (bool_decide_eq_false_2 _ Htok).
    erewrite andthen_ok; [|reflexivity].
    rewrite (bool_decide_eq_false_2 _ Hsym).
    erewrite andthen_raise; reflexivity.
Qed.

Lemma env_get_key_errors_witness :
  construct (EnvGet EmptyEnv (KeyExpr (BoolLit true)) false false
                    (BoolLit true))
            None (init (mkProperty false))
  = (Raise (DiagnosticError "Invalid key argument for Env.get: True"),
     init (mkProperty false)) /\
  construct (EnvGet EmptyEnv (KeyExpr EmptyEnv) false false (BoolLit true))
            None (init (mkProperty false))
  = (Raise (DiagnosticError "Wrong type for symbol expr: LexicalEnvType"),
     init (mkProperty false)).
Proof.
  destruct (env_get_key_errors EmptyEnv false false (BoolLit true) None
                               (init (mkProperty false)))
    as (Hinvalid & _ & Htype).
  split.
  - apply (Hinvalid (KeyExpr (BoolLit true)) "True"). reflexivity.
  - apply (Htype EmptyEnv (VarExpr EmptyEnvV)).
    + reflexivity.
    + reflexivity.
    + discriminate.
    + discriminate.
Defined.

(** A lookup that constructs has resolved, in this order, its key, its
    environment, then -- for a sequential lookup -- [Self], and last the
    [recursive] flag, and these are its operands in that order.  The
    key operand is a symbol: a string key is the symbol literal of that
    string, a key of the symbol type is taken as it is, and a key of the
    token type is wrapped in the conversion to a symbol. *)
Theorem env_get_operands :
  forall (env_expr : AbstractExpression)
         (symbol_expr : key_arg AbstractExpression) (ru sq : bool)
         (recursive : AbstractExpression) (t : option CompiledType)
         (s : EnvState) (r : ResolvedExpression) (s' : EnvState),
    construct (EnvGet env_expr symbol_expr ru sq recursive) t s = (Ok r, s') ->
    exists rkey renv rrec s1 s2 s3 template ty,
      match symbol_expr with
      | KeyExpr k => construct k None s = (Ok rkey, s1)
      | KeyStr str => rkey = SymbolLiteralExpr str /\ s1 = s
      | KeyOther _ => False
      end /\
      (type rkey = Token \/ type rkey = Symbol) /\
      construct env_expr (Some LexicalEnvType) s1 = (Ok renv, s2) /\
      construct recursive (Some BoolType) s2 = (Ok rrec, s3) /\
      r = BasicExpr template ty
            ([renv;
              if bool_decide (type rkey = Token) then GetSymbolExpr rkey
              else rkey]
               ++ (if sq then [VarExpr SelfV] else []) ++ [rrec])
            (Some "Env_Get_Result").
Proof.
  intros env_expr symbol_expr ru sq recursive t s r s' H.
  assert (exists s0, construct_method
                       (EnvGet env_expr symbol_expr ru sq recursive) s
                     = (Ok r, s0)) as [s0 H0].
  { unfold construct, construct_with in H.
    apply andthen_ok_inv in H as (r0 & sa & Hm & H).
    exists sa. destruct t as [t|].
    - apply andthen_ok_inv in H as (u & sb & _ & H).
      inversion H; subst. exact Hm.
    - inversion H; subst. exact Hm. }
  clear H. simpl construct_method in H0. unfold env_get in H0.
  apply andthen_ok_inv in H0 as (u & sa & Hchk & H0).
  apply andthen_ok_inv in H0 as (rkey & s1 & Hkey & H0).
  apply andthen_ok_inv in H0 as (sym & sb & Hsym & H0).
  apply andthen_ok_inv in H0 as (u' & sc & Htype & H0).
  apply check_ok_inv in Htype as [Htype ->].
  apply bool_decide_eq_true in Htype.
  apply andthen_ok_inv in H0 as (renv & s2 & Henv & H0).
  apply andthen_ok_inv in H0 as (p & sd & Hp & H0).
  apply andthen_ok_inv in H0 as (rrec & s3 & Hrec & H0).
  assert (sym = (if bool_decide (type rkey = Token) then GetSymbolExpr rkey
                 else rkey) /\ sb = s1) as [-> ->].
  { unfold GetSymbol_construct_static in Hsym.
    destruct (bool_decide (type rkey = Token));
      inversion Hsym; split; reflexivity. }
  assert (type rkey = Token \/ type rkey = Symbol) as Hk.
  { destruct (bool_decide (type rkey = Token)) eqn:Hb.
    - left. apply bool_decide_eq_true in Hb. exact Hb.
    - right. exact Htype. }
  assert (snd p
          = [renv;
             if bool_decide (type rkey = Token) then GetSymbolExpr rkey
             else rkey] ++ (if sq then [VarExpr SelfV] else [])
          /\ sd = s2) as [Hops ->].
  { destruct sq.
    - apply andthen_ok_inv in Hp as (from & se & Hfrom & Hp).
      inversion Hp; subst. cbn.
      cbv [construct_Self construct_with andthen AbstractVariable_construct
           ret check_source_language] in Hfrom.
      cbn in Hfrom. inversion Hfrom; subst. split; reflexivity.
    - inversion Hp; subst. cbn. split; reflexivity. }
  exists rkey, renv, rrec, s1, s2, s3.
  assert (match symbol_expr with
          | KeyExpr k => construct k None s = (Ok rkey, s1)
          | KeyStr str => rkey = SymbolLiteralExpr str /\ s1 = s
          | KeyOther _ => False
          end) as Hkey'.
  { apply valid_key_inv in Hchk as [-> Hvalid].
    destruct symbol_expr as [k|str|repr]; cbn in Hkey.
    - exact Hkey.
    - inversion Hkey; subst. split; reflexivity.
    - discriminate Hvalid. }
  destruct ru.
  - cbv [ret] in H0. injection H0 as Hr Hs. subst r. eexists _, _.
    split; [exact Hkey'|]. split; [exact Hk|]. split; [exact Henv|].
    split; [exact Hrec|]. rewrite Hops, <- app_assoc. reflexivity.
  - apply andthen_ok_inv in H0 as (u'' & se & _ & H0).
    cbv [ret] in H0. injection H0 as Hr Hs. subst r. eexists _, _.
    split; [exact Hkey'|]. split; [exact Hk|]. split; [exact Henv|].
    split; [exact Hrec|]. rewrite Hops, <- app_assoc. reflexivity.
Qed.

Lemma env_get_operands_witness :
  let token := VarRef (OtherV (mkName "Tok") Token) in
  exists r s',
    construct (EnvGet EmptyEnv (KeyExpr token) false true (BoolLit true))
              None (init (mkProperty false)) = (Ok r, s') /\
    exists template ty,
      r = BasicExpr template ty
            [VarExpr EmptyEnvV;
             GetSymbolExpr (VarExpr (OtherV (mkName "Tok") Token));
             VarExpr SelfV; LiteralExpr true]
            (Some "Env_Get_Result").
Proof.
  intros token. eexists _, _. split; [vm_compute; reflexivity|].
  edestruct (env_get_operands EmptyEnv (KeyExpr token) false true
                              (BoolLit true) None (init (mkProperty false)))
    as (rkey & renv & rrec & s1 & s2 & s3 & template & ty
        & Hkey & _ & Henv & Hrec & Hr);
    [vm_compute; reflexivity|].
  vm_compute in Hkey, Henv, Hrec.
  inversion Hkey; subst rkey s1. inversion Henv; subst renv s2.
  inversion Hrec; subst rrec s3.
  exists template, ty. exact Hr.
Defined.

(** *** Groups and visibility *)




(** [is_visible_from(referenced_env, base_env)] constructs its second
    argument first: the operands of the call are the base environment
    and then the referenced one, and when the base environment fails to
    construct the referenced one is never constructed, so that of two
    faulty arguments the diagnostic is that of the base. *)
Theorem is_visible_from_order :
  forall (referenced_env base_env : AbstractExpression) (s : EnvState),
    (forall e s1,
        construct base_env (Some LexicalEnvType) s = (Raise e, s1) ->
        forall t,
          construct (IsVisibleFrom referenced_env base_env) t s
          = (Raise e, s1)) /\
    (forall t r s',
        construct (IsVisibleFrom referenced_env base_env) t s = (Ok r, s') ->
        exists rb s1 rr s2,
          construct base_env (Some LexicalEnvType) s = (Ok rb, s1) /\
          construct referenced_env (Some LexicalEnvType) s1 = (Ok rr, s2) /\
          r = BuiltinCallExpr "Is_Visible_From" BoolType [rb; rr] None).
Proof.
  intros referenced_env base_env s. split.
  - intros e s1 Hb t. unfold construct at 1, construct_with.
    erewrite andthen_raise; [reflexivity|].
    simpl construct_method. unfold is_visible_from.
    erewrite andthen_raise; [reflexivity | exact Hb].
  - intros t r s' H. unfold construct at 1, construct_with in H.
    apply andthen_ok_inv in H as (r0 & s0 & Hm & H).
    assert (r = r0) as ->.
    { destruct t as [t|].
      - apply andthen_ok_inv in H as (u & s1 & _ & H). inversion H.
        reflexivity.
      - inversion H. reflexivity. }
    simpl construct_method in Hm. unfold is_visible_from in Hm.
    apply andthen_ok_inv in Hm as (rb & s1 & Hb & Hm).
    apply andthen_ok_inv in Hm as (rr & s2 & Hr & Hm).
    cbv [ret] in Hm. injection Hm as Hr0 _. subst r0.
    exists rb, s1, rr, s2.
    split; [exact Hb|]. split; [exact Hr | reflexivity].
Qed.

Lemma is_visible_from_order_witness :
  construct (IsVisibleFrom Env (BoolLit true)) None (init (mkProperty false))
  = (Raise (DiagnosticError "Expected type LexicalEnvType, got BoolType"),
     init (mkProperty false)).
Proof.
  destruct (is_visible_from_order Env (BoolLit true)
                                  (init (mkProperty false))) as [H _].
  apply H. vm_compute. reflexivity.
Defined.

(** *** What the scopes show to their body *)

(** The body of [with Env.bind_default(prop):], for the property [prop]
    under construction, sees an ambient environment exactly when [prop]
    has an implicit environment parameter, whatever was bound outside
    the scope: a reference to [Env] made there resolves when [prop] has
    the parameter, and renders as the default name [Current_Env]; it
    raises the diagnostic when [prop] has none.  In the first case the
    scope ends in the state it started in. *)
Theorem bind_default_scope :
  forall (prop : PropertyDef) (s : EnvState),
    property s = prop ->
    has_ambient_env (default_binding prop s) = has_implicit_env prop /\
    (forall A (body : C A),
        with_ (bind_default prop) body s
        = match body (default_binding prop s) with
          | (Ok a, s2) =>
              (Ok a, if has_implicit_env prop then set_name (_name s) s2
                     else set_is_bound (_is_bound s) s2)
          | (Raise e, s2) => (Raise e, s2)
          end) /\
    (if has_implicit_env prop
     then with_ (bind_default prop) (construct Env None) s
          = (Ok (VarExpr EnvV), s) /\
          forall format_pre format_expr,
            with_ (bind_default prop)
                  (render_expr format_pre format_expr (VarExpr EnvV)) s
            = (Ok "Current_Env", s)
     else fst (with_ (bind_default prop) (construct Env None) s)
          = Raise (DiagnosticError no_implicit_env_msg)).
Proof.
  intros prop s Hprop.
  assert (forall A (body : C A),
             with_ (bind_default prop) body s
             = match body (default_binding prop s) with
               | (Ok a, s2) =>
                   (Ok a, if has_implicit_env prop then set_name (_name s) s2
                          else set_is_bound (_is_bound s) s2)
               | (Raise e, s2) => (Raise e, s2)
               end) as Hwith.
  { intros A body. unfold bind_default, default_binding.
    destruct (has_implicit_env prop);
      cbv [with_ yield_within bind_name cm_enter cm_exit andthen get put ret
           modify];
      destruct (body _) as [[a|e] s2]; reflexivity. }
  split; [|split; [exact Hwith|]].
  - unfold has_ambient_env, default_binding, is_bound.
    destruct (has_implicit_env prop) eqn:Hp; cbn; rewrite Hprop, Hp;
      reflexivity.
  - destruct (has_implicit_env prop) eqn:Hp.
    + split.
      * rewrite Hwith. unfold default_binding. rewrite Hp.
        cbv [construct construct_with Env construct_method
             EnvVariable_construct andthen get check_source_language
             has_ambient_env AbstractVariable_construct ret].
        cbn. rewrite Hprop, Hp. cbn. rewrite set_name_restore.
        reflexivity.
      * intros fp fe. rewrite Hwith. unfold default_binding. rewrite Hp.
        cbn. rewrite set_name_restore. reflexivity.
    + rewrite Hwith. unfold default_binding. rewrite Hp.
      rewrite construct_Env_unbound; [reflexivity|].
      unfold has_ambient_env. cbn. rewrite Hprop, Hp. reflexivity.
Qed.

Lemma bind_default_scope_witness :
  let s := set_is_bound true (init (mkProperty false)) in
  fst (with_ (bind_default (mkProperty false)) (construct Env None) s)
  = Raise (DiagnosticError no_implicit_env_msg).
Proof.
  intros s.
  destruct (bind_default_scope (mkProperty false) s eq_refl) as (_ & _ & H).
  exact H.
Defined.

(** Rendering a resolved expression always returns and leaves the store
    as it found it: whatever names the bind nodes of the expression
    give to [Env] while their dependent expressions are rendered, [Env]
    has its former name again afterwards. *)
Theorem render_leaves_state :
  forall (format_pre :
            ResolvedExpression -> list string -> list string -> string)
         (format_expr : ResolvedExpression -> list string -> string)
         (pre : bool) (e : ResolvedExpression) (s : EnvState),
    exists text, render format_pre format_expr pre e s = (Ok text, s).
Proof.
  intros fp fe pre e s. exists (rendered fp fe pre e s).
  apply render_rendered.
Qed.

End envs_facts.

(* ===================================================================== *)
(** ** Properties of langkit/lexer.py *)
(* ===================================================================== *)

Module lexer_facts.

Import names lexer.

(** *** Case rules *)


Lemma check_alts_ok len alts checked :
  check_alts len alts = Ok checked ->
  alts = IsAlt <$> checked /\
  Forall (fun a => match_size_le (match_size a) len = true) checked.
Proof.
  revert checked.
  induction alts as [|[a|repr] alts IH]; simpl; intros checked H.
  - inversion H. split; [reflexivity | constructor].
  - destruct (match_size_le (match_size a) len) eqn:Hle; [|discriminate H].
    destruct (check_alts len alts) as [l|e']; [|discriminate H].
    inversion H; subst. destruct (IH l eq_refl) as [-> Hall].
    split; [reflexivity | constructor; assumption].
  - discriminate H.
Qed.






(** *** add_rules *)

Lemma add_rule_eq entry self :
  add_rule entry self
  = match as_rule entry with
    | Some r => (Ok tt, with_rule self r)
    | None => (Raise (AssertionError EmptyString), self)
    end.
Proof.
  destruct entry as [m|a|m a|elts|n|str|z|]; try reflexivity.
  - destruct m as [[| | | | |]| | | | | | |]; try reflexivity.
  - destruct elts as [|m [|a [|x elts]]]; try reflexivity.
    destruct m as [[| | | | |]| | | | | | |]; try reflexivity.
Qed.

Lemma add_rules_ok entries : forall self,
  Forall (fun e => is_Some (as_rule e)) entries ->
  add_rules entries self
  = (Ok tt, foldl with_rule self (omap as_rule entries)).
Proof.
  induction entries as [|e entries IH]; intros self Hall; [reflexivity|].
  inversion Hall as [|? ? [r Hr] Hall']; subst.
  simpl. unfold andthen. rewrite add_rule_eq, Hr. rewrite (IH _ Hall').
  reflexivity.
Qed.

Lemma foldl_with_rule_rules rs : forall self,
  rules (foldl with_rule self rs) = rules self ++ rs.
Proof.
  induction rs as [|r rs IH]; intros self; simpl.
  - rewrite app_nil_r. reflexivity.
  - rewrite IH. simpl. rewrite <- app_assoc. reflexivity.
Qed.

Lemma foldl_with_rule_literals rs : forall self,
  literals_map (foldl with_rule self rs)
  = foldl record_literal (literals_map self) rs.
Proof.
  induction rs as [|r rs IH]; intros self; simpl; [reflexivity|].
  rewrite IH. reflexivity.
Qed.

Lemma foldl_with_rule_others rs : forall self,
  tokens (foldl with_rule self rs) = tokens self /\
  tokens_set (foldl with_rule self rs) = tokens_set self /\
  _patterns (foldl with_rule self rs) = _patterns self /\
  patterns (foldl with_rule self rs) = patterns self /\
  track_indent (foldl with_rule self rs) = track_indent self.
Proof.
  induction rs as [|r rs IH]; intros self; simpl.
  - repeat split.
  - destruct (IH (with_rule self r)) as (H1 & H2 & H3 & H4 & H5).
    repeat split; assumption.
Qed.

(** C6 (as amended).  [add_rules] rejects an entry that is a tuple of a
    length other than two, or that is neither a tuple nor a rule
    association, by a failed [assert]: the call raises [AssertionError]
    at the first such entry, with the entries before it already added,
    and the diagnostics collaborator is not involved.  The two
    components of a two-element tuple are not examined. *)
Theorem add_rules_rejects_by_assertion :
  forall (good : list pyobj) (bad : pyobj) (rest : list pyobj)
         (self : Lexer),
    Forall (fun e => is_Some (as_rule e)) good ->
    as_rule bad = None ->
    add_rules (good ++ bad :: rest) self
    = (Raise (AssertionError EmptyString),
       foldl with_rule self (omap as_rule good)) /\
    is_diagnostic (AssertionError EmptyString) = false /\
    (forall m a : pyobj, is_Some (as_rule (PyTuple [m; a]))).
Proof.
  intros good bad rest self Hgood Hbad. split; [|split].
  - revert self. induction Hgood as [|e good [r Hr] Hgood IH]; intros self.
    + simpl. unfold andthen. rewrite add_rule_eq, Hbad. reflexivity.
    + simpl. unfold andthen. rewrite add_rule_eq, Hr.
      fold (@andthen Lexer unit unit).
      change (add_rules (good ++ bad :: rest) (with_rule self r)
              = (Raise (AssertionError EmptyString),
                 foldl with_rule (with_rule self r) (omap as_rule good))).
      apply IH.
  - reflexivity.
  - intros m a. eexists. reflexivity.
Qed.

Lemma add_rules_rejects_by_assertion_witness :
  add_rules [PyTuple [PyMatcher (Literal "+"); PyAction Ignore];
             PyTuple [PyMatcher (Literal "-"); PyAction Ignore; PyNone];
             PyTuple [PyMatcher (Literal "*"); PyAction Ignore]]
            example_lexer
  = (Raise (AssertionError EmptyString),
     with_rule example_lexer
               (mkRuleAssoc (PyMatcher (Literal "+")) (PyAction Ignore))).
Proof.
  apply (add_rules_rejects_by_assertion
           [PyTuple [PyMatcher (Literal "+"); PyAction Ignore]]
           (PyTuple [PyMatcher (Literal "-"); PyAction Ignore; PyNone])
           [PyTuple [PyMatcher (Literal "*"); PyAction Ignore]]
           example_lexer).
  - constructor; [eexists; reflexivity | constructor].
  - reflexivity.
Defined.

(** C6 (as stated) fails: a three-element tuple and a bare number are
    refused by an [AssertionError], which is no reported diagnostic,
    and a two-element tuple of numbers is accepted as a rule. *)
Lemma add_rules_malformed_not_reported :
  (exists e self',
      add_rules [PyTuple [PyMatcher (Literal "-"); PyAction Ignore; PyNone]]
                example_lexer = (Raise e, self') /\
      is_diagnostic e = false) /\
  (exists e self',
      add_rules [PyInt 3] example_lexer = (Raise e, self') /\
      is_diagnostic e = false) /\
  (exists self',
      add_rules [PyTuple [PyInt 1; PyInt 2]] example_lexer
      = (Ok tt, self') /\
      last (rules self') = Some (mkRuleAssoc (PyInt 1) (PyInt 2))).
Proof.
  split; [|split].
  - eexists _, _. split; [vm_compute; reflexivity | reflexivity].
  - eexists _, _. split; [vm_compute; reflexivity | reflexivity].
  - eexists. split; [vm_compute; reflexivity | reflexivity].
Qed.

(** *** Lexer construction *)

Lemma class_body_eq decls : forall d c,
  class_body decls d c = (Ok (declare decls d c), c + length decls).
Proof.
  induction decls as [|x decls IH]; intros d c; simpl.
  - rewrite Nat.add_0_r. reflexivity.
  - cbv [andthen TokenAction_init get put ret]. rewrite IH.
    rewrite Nat.add_succ_r. reflexivity.
Qed.

Lemma LexerToken_class_eq : LexerToken_class 0 = (Ok LexerToken_dict, 2).
Proof. reflexivity. Qed.

Lemma lookup_named klass attr :
  named klass !! attr = with_name (from_camel attr) <$> klass !! attr.
Proof.
  unfold named. rewrite map_lookup_imap.
  destruct (klass !! attr); reflexivity.
Qed.

Lemma lookup_mro_last classes d attr t :
  d !! attr = Some t ->
  exists t', lookup_mro (classes ++ [d]) attr = Ok t'.
Proof.
  intros Hd. induction classes as [|c classes IH]; simpl.
  - rewrite Hd. eexists. reflexivity.
  - destruct (c !! attr); [eexists; reflexivity | exact IH].
Qed.

Lemma lookup_mro_first c classes attr t :
  c !! attr = Some t -> lookup_mro (c :: classes) attr = Ok t.
Proof. intros H. simpl. rewrite H. reflexivity. Qed.

Lemma add_rules_entries (rs : list (RuleAssoc * bool)) self :
  add_rules (entry_of <$> rs) self
  = (Ok tt, foldl with_rule self (fst <$> rs)).
Proof.
  assert (omap as_rule (entry_of <$> rs) = fst <$> rs) as Hrs.
  { induction rs as [|[[m a] []] rs IH]; [reflexivity| |];
      cbn; cbn in IH; rewrite IH; reflexivity. }
  rewrite add_rules_ok, Hrs; [reflexivity|].
  clear Hrs. induction rs as [|[[m a] []] rs IH]; cbn.
  - constructor.
  - constructor; [eexists; reflexivity | exact IH].
  - constructor; [eexists; reflexivity | exact IH].
Qed.

Lemma add_patterns_eq pats : forall self,
  exists self',
    add_patterns pats self = (Ok tt, self') /\
    _patterns self'
    = _patterns self ++ ((fun kv => PredefPattern (fst kv) (snd kv)) <$> pats) /\
    rules self' = rules self.
Proof.
  induction pats as [|[k v] pats IH]; intros self; simpl.
  - exists self. rewrite app_nil_r. repeat split.
  - cbv [andthen modify].
    destruct (IH (set_patterns
                    (<[lower k := PredefPattern k v]> (patterns self))
                    (_patterns self ++ [PredefPattern k v]) self))
      as (self' & -> & Hp & Hr).
    exists self'. split; [reflexivity|]. rewrite Hp, Hr. simpl.
    rewrite <- app_assoc. split; reflexivity.
Qed.

Lemma Lexer_init_eq klass bases track_indent c :
  let classes :=
    lexer_classes klass (bases ++ [LexerToken_dict]) track_indent c in
  exists self c' Termination LexingFailure,
    Lexer_init klass (bases ++ [LexerToken_dict]) track_indent c
    = (Ok self, c') /\
    tokens self = mkLexerToken (named <$> classes)
                               (concat (add_tokens <$> classes)) /\
    getattr (tokens self) "Termination" = Ok Termination /\
    getattr (tokens self) "LexingFailure" = Ok LexingFailure /\
    _patterns self = [] /\
    (if track_indent
     then exists Newline,
         getattr (tokens self) "Newline" = Ok Newline /\
         rules self
         = [mkRuleAssoc (PyMatcher Eof) (PyAction (TokAct Termination));
            mkRuleAssoc (PyMatcher Failure)
                        (PyAction (TokAct LexingFailure));
            mkRuleAssoc (PyMatcher (Literal "\n"))
                        (PyAction (TokAct Newline))]
     else
       rules self
       = [mkRuleAssoc (PyMatcher Eof) (PyAction (TokAct Termination));
          mkRuleAssoc (PyMatcher Failure)
                      (PyAction (TokAct LexingFailure))]).
Proof.
  intros classes. unfold lexer_classes in classes.
  set (klass' := if track_indent then declare indent_decls klass c
                 else klass) in *.
  set (c' := if track_indent then c + 3 else c).
  set (toks := mkLexerToken (named <$> classes)
                            (concat (add_tokens <$> classes))).
  assert (LexerToken_init klass (bases ++ [LexerToken_dict]) track_indent c
          = (Ok toks, c')) as Htoks.
  { unfold LexerToken_init, andthen. subst klass' c' toks classes.
    destruct track_indent.
    - rewrite class_body_eq. reflexivity.
    - reflexivity. }
  assert (forall attr t,
             LexerToken_dict !! attr = Some t ->
             exists t', getattr toks attr = Ok t') as Hbase.
  { intros attr t Ht. unfold getattr. subst toks classes. cbn [mro].
    rewrite fmap_cons, fmap_app, app_comm_cons. cbn [fmap list_fmap].
    eapply lookup_mro_last. rewrite lookup_named, Ht. reflexivity. }
  destruct (Hbase "Termination" _ eq_refl) as [T HT].
  destruct (Hbase "LexingFailure" _ eq_refl) as [F HF].
  destruct track_indent.
  - assert (exists N, getattr toks "Newline" = Ok N) as [N HN].
    { unfold getattr. subst toks classes. cbn [mro]. rewrite fmap_cons.
      eexists. apply lookup_mro_first.
      rewrite lookup_named. subst klass'. simpl declare.
      rewrite lookup_insert_eq. reflexivity. }
    eexists _, c', T, F. split.
    { unfold Lexer_init, andthen. rewrite Htoks. cbv beta iota.
      unfold lift. rewrite HT. cbv beta iota. rewrite HF.
      cbv beta iota. rewrite HN. reflexivity. }
    cbn. repeat split; try assumption.
    exists N. split; [exact HN | reflexivity].
  - eexists _, c', T, F. split.
    { unfold Lexer_init, andthen. rewrite Htoks.
      unfold lift. rewrite HT, HF. cbn. reflexivity. }
    cbn. repeat split; try assumption.
Qed.

(** C9.  Whatever the tokens class (any class whose method resolution
    order ends with [LexerToken]), constructing the lexer succeeds and
    leaves a rule list that consists of the end-of-input matcher with
    the [Termination] action, then the failure matcher with the
    [LexingFailure] action, then, when indentation is tracked, the
    newline literal with the [Newline] action, and an empty pattern
    list.  Every later [add_rules] call appends its rules in the order
    given and leaves the patterns alone; every [add_patterns] call
    appends its patterns in the order given and leaves the rules
    alone. *)
Theorem Lexer_implicit_rules_first :
  forall (klass : ClassDict) (bases : list ClassDict)
         (track_indent : bool) (c : nat),
  exists self c' Termination LexingFailure,
    Lexer_init klass (bases ++ [LexerToken_dict]) track_indent c
    = (Ok self, c') /\
    getattr (tokens self) "Termination" = Ok Termination /\
    getattr (tokens self) "LexingFailure" = Ok LexingFailure /\
    _patterns self = [] /\
    (if track_indent
     then exists Newline,
         getattr (tokens self) "Newline" = Ok Newline /\
         rules self
         = [mkRuleAssoc (PyMatcher Eof) (PyAction (TokAct Termination));
            mkRuleAssoc (PyMatcher Failure)
                        (PyAction (TokAct LexingFailure));
            mkRuleAssoc (PyMatcher (Literal "\n"))
                        (PyAction (TokAct Newline))]
     else
       rules self
       = [mkRuleAssoc (PyMatcher Eof) (PyAction (TokAct Termination));
          mkRuleAssoc (PyMatcher Failure)
                      (PyAction (TokAct LexingFailure))]) /\
    (forall (rs : list (RuleAssoc * bool)) (x : Lexer),
        exists x',
          add_rules (entry_of <$> rs) x = (Ok tt, x') /\
          rules x' = rules x ++ (fst <$> rs) /\
          _patterns x' = _patterns x) /\
    (forall (pats : list (string * string)) (x : Lexer),
        exists x',
          add_patterns pats x = (Ok tt, x') /\
          _patterns x'
          = _patterns x
            ++ ((fun kv => PredefPattern (fst kv) (snd kv)) <$> pats) /\
          rules x' = rules x).
Proof.
  intros klass bases track_indent c.
  destruct (Lexer_init_eq klass bases track_indent c)
    as (self & c' & T & F & Hinit & _ & HT & HF & Hpat & Hrules).
  exists self, c', T, F.
  split; [exact Hinit|]. split; [exact HT|]. split; [exact HF|].
  split; [exact Hpat|]. split; [exact Hrules|]. split.
  - intros rs x. eexists. split; [apply add_rules_entries|].
    split; [apply foldl_with_rule_rules | apply foldl_with_rule_others].
  - apply add_patterns_eq.
Qed.

(** *** token_base_name *)

Lemma token_base_name_declared self s :
  from_lower (lower s) ∈ tokens_set self ->
  token_base_name (PyStr s) self
  = (Ok (PyName (from_lower (lower s))), self).
Proof.
  intros Hs. cbv [token_base_name andthen get].
  rewrite bool_decide_eq_true_2 by exact Hs. reflexivity.
Qed.

Lemma token_base_name_literal self s t :
  from_lower (lower s) ∉ tokens_set self ->
  literals_map self !! s = Some (PyAction (TokAct t)) ->
  token_base_name (PyStr s) self = (Ok (name_of t), self).
Proof.
  intros Hs Hl. cbv [token_base_name andthen get].
  rewrite bool_decide_eq_false_2 by exact Hs. rewrite Hl. reflexivity.
Qed.

(** C7 (as amended).  [token_base_name] returns the name of a token
    action instance; a name that is declared; for a string, the declared
    name it spells when lower-cased, and otherwise the [name] of the
    action that the latest literal rule with exactly that text maps to,
    which for a token action is its name.  When that action has no
    [name] ([Ignore], a [Case] action) the call ends in an
    [AttributeError].  A string that spells no declared name and is the
    text of no literal rule fails with the reported diagnostic.  A name
    that is not declared and a value of any other kind are refused by
    an assertion of the function; what is raised is no reported
    diagnostic. *)
Theorem token_base_name_cases :
  forall self : Lexer,
    (forall t, token_base_name (PyAction (TokAct t)) self
               = (Ok (name_of t), self)) /\
    (forall n, n ∈ tokens_set self ->
               token_base_name (PyName n) self = (Ok (PyName n), self)) /\
    (forall s, from_lower (lower s) ∈ tokens_set self ->
               token_base_name (PyStr s) self
               = (Ok (PyName (from_lower (lower s))), self)) /\
    (forall s t, from_lower (lower s) ∉ tokens_set self ->
                 literals_map self !! s = Some (PyAction (TokAct t)) ->
                 token_base_name (PyStr s) self = (Ok (name_of t), self)) /\
    (forall s n p, from_lower (lower s) ∉ tokens_set self ->
                   literals_map self !! s = Some (PyMatcher (PredefPattern n p)) ->
                   token_base_name (PyStr s) self = (Ok (PyStr n), self)) /\
    (forall s a, from_lower (lower s) ∉ tokens_set self ->
                 literals_map self !! s = Some a ->
                 has_name a = false ->
                 token_base_name (PyStr s) self
                 = (Raise (AttributeError "name"), self)) /\
    (forall s, from_lower (lower s) ∉ tokens_set self ->
               literals_map self !! s = None ->
               token_base_name (PyStr s) self
               = (Raise (DiagnosticError
                           (s +:+ " token literal is not part of the valid tokens for this grammar")),
                  self)) /\
    (forall n, n ∉ tokens_set self ->
               token_base_name (PyName n) self
               = (Raise (AssertionError EmptyString), self)) /\
    (forall token, accepted_kind token = false ->
                   exists e, token_base_name token self = (Raise e, self) /\
                             is_diagnostic e = false).
Proof.
  intros self.
  split; [reflexivity|].
  split.
  { intros n Hn. cbv [token_base_name andthen get assert].
    rewrite bool_decide_eq_true_2 by exact Hn. reflexivity. }
  split; [intros s Hs; apply token_base_name_declared; exact Hs|].
  split; [intros s t Hs Hl; apply token_base_name_literal; assumption|].
  split.
  { intros s n p Hs Hl. cbv [token_base_name andthen get].
    rewrite bool_decide_eq_false_2 by exact Hs. rewrite Hl. reflexivity. }
  split.
  { intros s a Hs Hl Ha. cbv [token_base_name andthen get].
    rewrite bool_decide_eq_false_2 by exact Hs. rewrite Hl.
    destruct a as [m|[t| |]|m a|elts|n|str|z|]; try destruct m;
      try discriminate Ha; reflexivity. }
  split.
  { intros s Hs Hl. cbv [token_base_name andthen get].
    rewrite bool_decide_eq_false_2 by exact Hs. rewrite Hl. reflexivity. }
  split.
  { intros n Hn. cbv [token_base_name andthen get assert].
    rewrite bool_decide_eq_false_2 by exact Hn. reflexivity. }
  intros token Hk. exists (AttributeError "__name__").
  destruct token as [m|[t| |]|m a|elts|n|str|z|];
    try discriminate Hk; split; reflexivity.
Qed.

Lemma token_base_name_cases_witness :
  token_base_name (PyStr "IDENTIFIER") example_lexer
  = (Ok (PyName (mkName "Identifier")), example_lexer) /\
  token_base_name (PyStr "identifiers") example_lexer
  = (Raise (DiagnosticError
              "identifiers token literal is not part of the valid tokens for this grammar"),
     example_lexer) /\
  (let self := with_rule example_lexer
                         (mkRuleAssoc (PyMatcher (Literal "#"))
                                      (PyAction Ignore)) in
   token_base_name (PyStr "#") self = (Raise (AttributeError "name"), self)).
Proof.
  split; [|split].
  - destruct (token_base_name_cases example_lexer)
      as (_ & _ & Hdecl & _).
    apply (Hdecl "IDENTIFIER"). vm_compute. reflexivity.
  - destruct (token_base_name_cases example_lexer)
      as (_ & _ & _ & _ & _ & _ & Hnone & _).
    apply (Hnone "identifiers"); vm_compute; [|reflexivity].
    intros H. discriminate H.
  - intros self.
    destruct (token_base_name_cases self)
      as (_ & _ & _ & _ & _ & Hnameless & _).
    apply (Hnameless "#" (PyAction Ignore)).
    + vm_compute. intros H. discriminate H.
    + vm_compute. reflexivity.
    + reflexivity.
Defined.

(** C7 (as stated) fails: a number, a name that is not declared, and
    the text of a literal rule whose action is [Ignore] all end in an
    exception that is no reported diagnostic. *)
Lemma token_base_name_unreported :
  (exists e, fst (token_base_name (PyInt 3) example_lexer) = Raise e /\
             is_diagnostic e = false) /\
  (exists e, fst (token_base_name (PyName (mkName "Nope")) example_lexer)
             = Raise e /\
             is_diagnostic e = false) /\
  (exists e, fst (token_base_name
                    (PyStr "#")
                    (with_rule example_lexer
                               (mkRuleAssoc (PyMatcher (Literal "#"))
                                            (PyAction Ignore))))
             = Raise e /\
             is_diagnostic e = false).
Proof.
  repeat split; eexists; (split; [vm_compute; reflexivity | reflexivity]).
Qed.

(** *** The map of literals *)

Lemma foldl_with_rule_snoc self rs r :
  foldl with_rule self (rs ++ [r]) = with_rule (foldl with_rule self rs) r.
Proof. rewrite foldl_app. reflexivity. Qed.

(** C10 (as amended).  After rules are added of which the last with a
    literal matcher of text [t] has action [a2], whatever rules with the
    same literal came before it ([r1] first, then any [mid]), the rule
    list holds them in the order given, the earlier first, the literal
    map sends [t] to [a2], and [token_base_name] on the string [t]
    yields the name of [a2] when [a2] is a token action -- unless [t],
    lower-cased, spells a declared token name, which is then returned
    whatever the literal rules are. *)
Theorem literal_rules_later_wins :
  forall (self : Lexer) (t : string) (a1 a2 : pyobj)
         (mid : list (RuleAssoc * bool)) (b1 b2 : bool),
    let r1 := mkRuleAssoc (PyMatcher (Literal t)) a1 in
    let r2 := mkRuleAssoc (PyMatcher (Literal t)) a2 in
    exists self',
      add_rules (entry_of (r1, b1) :: (entry_of <$> mid)
                   ++ [entry_of (r2, b2)]) self
      = (Ok tt, self') /\
      rules self' = rules self ++ r1 :: (fst <$> mid) ++ [r2] /\
      literals_map self' !! t = Some a2 /\
      (forall tok, from_lower (lower t) ∉ tokens_set self ->
                   a2 = PyAction (TokAct tok) ->
                   token_base_name (PyStr t) self'
                   = (Ok (name_of tok), self')) /\
      (from_lower (lower t) ∈ tokens_set self ->
       token_base_name (PyStr t) self'
       = (Ok (PyName (from_lower (lower t))), self')).
Proof.
  intros self t a1 a2 mid b1 b2 r1 r2.
  set (rs := (r1, b1) :: mid ++ [(r2, b2)]).
  assert (entry_of (r1, b1) :: (entry_of <$> mid) ++ [entry_of (r2, b2)]
          = entry_of <$> rs) as ->.
  { subst rs. rewrite fmap_cons, fmap_app. reflexivity. }
  assert (fst <$> rs = (r1 :: (fst <$> mid)) ++ [r2]) as Hfst.
  { subst rs. rewrite fmap_cons, fmap_app. reflexivity. }
  exists (foldl with_rule self (fst <$> rs)).
  split; [apply add_rules_entries|].
  destruct (foldl_with_rule_others (fst <$> rs) self)
    as (_ & Hset & _).
  assert (literals_map (foldl with_rule self (fst <$> rs)) !! t = Some a2)
    as Hlit.
  { rewrite Hfst, foldl_with_rule_snoc. unfold with_rule at 1.
    cbn. apply lookup_insert_eq. }
  split; [|split; [exact Hlit|split]].
  - rewrite foldl_with_rule_rules, Hfst. reflexivity.
  - intros tok Hn ->.
    apply token_base_name_literal; [rewrite Hset; exact Hn | exact Hlit].
  - intros Hn. apply token_base_name_declared. rewrite Hset. exact Hn.
Qed.

Lemma literal_rules_later_wins_witness :
  let Plus := mkTokenAction WithText 7 (Some (mkName "Plus")) false false in
  let Add := mkTokenAction WithText 8 (Some (mkName "Add")) false false in
  exists self',
    add_rules [PyTuple [PyMatcher (Literal "+"); PyAction (TokAct Plus)];
               PyTuple [PyMatcher (Literal "+"); PyAction (TokAct Add)]]
              example_lexer = (Ok tt, self') /\
    token_base_name (PyStr "+") self' = (Ok (PyName (mkName "Add")), self').
Proof.
  intros Plus Add.
  destruct (literal_rules_later_wins
              example_lexer "+" (PyAction (TokAct Plus))
              (PyAction (TokAct Add)) [] true true)
    as (self' & Hadd & _ & _ & Hname & _).
  exists self'. split; [exact Hadd|].
  apply (Hname Add); [|reflexivity].
  vm_compute. intros H. discriminate H.
Defined.

(** C10 (as stated) fails when the literal spells a declared token
    name: with the rules [(Literal("is"), Is)] and then
    [(Literal("is"), Identifier)], the literal map sends ["is"] to
    [Identifier], the later action, but [token_base_name("is")] answers
    [Is], the name of the earlier one. *)
Lemma literal_spelling_declared_name_wins :
  exists Is Identifier self',
    getattr (tokens example_lexer) "Is" = Ok Is /\
    getattr (tokens example_lexer) "Identifier" = Ok Identifier /\
    add_rules [PyTuple [PyMatcher (Literal "is"); PyAction (TokAct Is)];
               PyTuple [PyMatcher (Literal "is");
                        PyAction (TokAct Identifier)]]
              example_lexer = (Ok tt, self') /\
    literals_map self' !! "is" = Some (PyAction (TokAct Identifier)) /\
    fst (token_base_name (PyStr "is") self') = Ok (name_of Is) /\
    name_of Is <> name_of Identifier.
Proof.
  eexists _, _, _.
  split; [vm_compute; reflexivity|].
  split; [vm_compute; reflexivity|].
  split; [vm_compute; reflexivity|].
  split; [vm_compute; reflexivity|].
  split; [vm_compute; reflexivity|].
  vm_compute. intros H. discriminate H.
Qed.

(** *** Token kinds *)

#[local] Instance by_value_total : Total by_value.
Proof. intros a b. unfold by_value. lia. Qed.

#[local] Instance by_value_trans : Transitive by_value.
Proof. intros a b c. unfold by_value. lia. Qed.




Lemma length_instances decls : forall c,
  length (instances decls c) = length decls.
Proof.
  induction decls as [|x decls IH]; intros c; simpl; [reflexivity|].
  rewrite IH. reflexivity.
Qed.




(** What [add_tokens] appends for a class body run into [d], up to the
    order in which a dictionary lists its items. *)
Lemma add_tokens_declare decls : forall d c,
  NoDup (fld_name <$> decls) ->
  (forall x, x ∈ decls -> d !! fld_name x = None) ->
  add_tokens (declare decls d c) ≡ₚ add_tokens d ++ instances decls c.
Proof.
  induction decls as [|x decls IH]; intros d c Hnd Hfresh; simpl.
  - rewrite app_nil_r. reflexivity.
  - rewrite fmap_cons in Hnd. apply NoDup_cons in Hnd as [Hx Hnd].
    rewrite IH.
    + unfold add_tokens, named. rewrite map_imap_insert.
      rewrite map_to_list_insert.
      * rewrite fmap_cons. cbn [snd].
        change (with_name (from_camel (fld_name x))
                  (mkTokenAction (fld_class x) c None
                     (fld_start_ignore_layout x) (fld_end_ignore_layout x)))
          with (instance_of x c).
        rewrite <- Permutation_middle. reflexivity.
      * rewrite map_lookup_imap, (Hfresh x); [reflexivity | left].
    + exact Hnd.
    + intros y Hy. rewrite lookup_insert_ne.
      * apply Hfresh. right. exact Hy.
      * intros Heq. apply Hx. rewrite Heq.
        apply list_elem_of_fmap. exists y. split; [reflexivity | exact Hy].
Qed.

Lemma add_tokens_empty : add_tokens ∅ = [].
Proof.
  unfold add_tokens, named. rewrite map_imap_empty, map_to_list_empty.
  reflexivity.
Qed.

Lemma declare_lookup_None decls k : forall d c,
  d !! k = None -> k ∉ fld_name <$> decls -> declare decls d c !! k = None.
Proof.
  induction decls as [|x decls IH]; intros d c Hd Hk; simpl; [exact Hd|].
  rewrite fmap_cons in Hk. apply not_elem_of_cons in Hk as [Hne Hk].
  apply IH; [|exact Hk]. rewrite lookup_insert_ne; [exact Hd|].
  intros Heq. apply Hne. symmetry. exact Heq.
Qed.

Lemma LexerToken_dict_eq : LexerToken_dict = declare builtin_decls ∅ 0.
Proof. reflexivity. Qed.

(** The fields of the tokens instance are the declared kinds, in some
    order. *)
Lemma fields_catalog decls c c1 track_indent :
  NoDup (fld_name <$> decls) ->
  (track_indent = true ->
   forall k, k ∈ fld_name <$> indent_decls -> k ∉ fld_name <$> decls) ->
  concat (add_tokens
            <$> lexer_classes (declare decls ∅ c) [LexerToken_dict]
                              track_indent c1)
  ≡ₚ catalog decls c c1 track_indent.
Proof.
  intros Hnd Hind. unfold lexer_classes, catalog. cbn [fmap list_fmap concat].
  rewrite app_nil_r.
  assert (add_tokens LexerToken_dict ≡ₚ instances builtin_decls 0) as ->.
  { rewrite LexerToken_dict_eq, add_tokens_declare, add_tokens_empty.
    - reflexivity.
    - compute_done.
    - intros x _. apply lookup_empty. }
  assert (add_tokens (declare decls ∅ c) ≡ₚ instances decls c) as Hdecls.
  { rewrite add_tokens_declare, add_tokens_empty.
    - reflexivity.
    - exact Hnd.
    - intros x _. apply lookup_empty. }
  destruct track_indent.
  - rewrite add_tokens_declare.
    + rewrite Hdecls. rewrite (Permutation_app_comm _ (instances builtin_decls 0)).
      rewrite app_assoc. reflexivity.
    + compute_done.
    + intros x Hx. apply declare_lookup_None; [apply lookup_empty|].
      apply Hind; [reflexivity|].
      apply list_elem_of_fmap. exists x. split; [reflexivity | exact Hx].
  - rewrite Hdecls, app_nil_r. apply Permutation_app_comm.
Qed.






(** *** Case rules: what is accepted *)

Lemma check_alts_complete len (l : list Alt) :
  Forall (fun a => match_size_le (match_size a) len = true) l ->
  check_alts len (IsAlt <$> l) = Ok l.
Proof.
  induction 1 as [|a l Ha Hl IH]; [reflexivity|].
  cbn. rewrite Ha. cbn in IH. rewrite IH. reflexivity.
Qed.

(** [Case(matcher, *alts)] builds a rule exactly when the length of the
    matcher is known, every alternative is an [Alt] whose [match_size]
    is absent or at most that length, there is at least one
    alternative, and the last one has no previous-token condition; the
    rule then pairs the matcher with the alternatives as given, in
    order, the last one set apart. *)
Theorem Case_init_accepts_iff :
  forall (m : Matcher) (alts : list alt_arg) (r : RuleAssoc),
    Case_init m alts = Ok r <->
    exists len alts' last_alt,
      max_match_length m = Ok len /\
      alts = IsAlt <$> (alts' ++ [last_alt]) /\
      Forall (fun a => match_size_le (match_size a) len = true)
             (alts' ++ [last_alt]) /\
      prev_token_cond last_alt = None /\
      r = mkRuleAssoc (PyMatcher m)
                      (PyAction (CaseAction len alts' last_alt)).
Proof.
  intros m alts r. unfold Case_init, CaseAction_init. split.
  - destruct (max_match_length m) as [len|e]; [|discriminate].
    destruct (check_alts len alts) as [checked|e] eqn:Hc; [|discriminate].
    apply check_alts_ok in Hc as [-> Hall].
    destruct (last checked) as [last_alt|] eqn:Hlast; [|discriminate].
    destruct (prev_token_cond last_alt) eqn:Hcond; [discriminate|].
    intros H. inversion H; subst r; clear H.
    apply last_Some in Hlast as [alts' ->].
    exists len, alts', last_alt. rewrite removelast_last.
    repeat split; assumption || reflexivity.
  - intros (len & alts' & last_alt & -> & -> & Hall & Hcond & ->).
    rewrite check_alts_complete by exact Hall.
    rewrite last_snoc, Hcond, removelast_last. reflexivity.
Qed.

(** The example of the class documentation. *)
Lemma Case_init_accepts_iff_witness :
  let Tick := mkTokenAction WithText 2 (Some (mkName "Tick")) false false in
  let Char := mkTokenAction WithText 3 (Some (mkName "Char")) false false in
  let Identifier :=
    mkTokenAction WithSymbol 4 (Some (mkName "Identifier")) false false in
  let All := mkTokenAction WithText 5 (Some (mkName "All")) false false in
  let first := mkAlt (Some [Identifier; All]) (Some Tick) (Some 1%Z) in
  let other := mkAlt None (Some Char) (Some 3%Z) in
  Case_init (Pattern "'.'") [IsAlt first; IsAlt other]
  = Ok (mkRuleAssoc (PyMatcher (Pattern "'.'"))
                    (PyAction (CaseAction 3 [first] other))).
Proof.
  intros Tick Char Identifier All first other.
  apply (Case_init_accepts_iff (Pattern "'.'")).
  exists 3%Z, [first], other.
  split; [vm_compute; reflexivity|]. split; [reflexivity|].
  split; [repeat constructor|]. split; reflexivity.
Defined.

Lemma pattern_chars_ok_app p q :
  pattern_chars_ok (p +:+ q) = pattern_chars_ok p && pattern_chars_ok q.
Proof.
  induction p as [|c p IH]; [reflexivity|].
  change (pattern_char_ok c && pattern_chars_ok (p +:+ q)
          = pattern_char_ok c && pattern_chars_ok p && pattern_chars_ok q).
  rewrite IH, andb_assoc. reflexivity.
Qed.

Lemma length_append p q :
  String.length (p +:+ q) = String.length p + String.length q.
Proof.
  induction p as [|c p IH]; [reflexivity|].
  change (S (String.length (p +:+ q))
          = S (String.length p) + String.length q).
  rewrite IH. reflexivity.
Qed.

(** A pattern without a known length cannot head a [Case] rule: the
    length of the matcher is asked for before any alternative is looked
    at, so a pattern with a character other than a letter, a digit, a
    dot or a quote raises the [ValueError] of [Pattern.max_match_length],
    whose message ends with the [repr] of the pattern, and the failure
    matcher [NotImplementedError], whatever the alternatives are -- even
    if there are none or they are malformed. *)
Theorem Case_init_unknown_length :
  forall (p : string) (alts : list alt_arg),
    pattern_chars_ok p = false ->
    let e :=
      ValueError
        ("Cannot compute the maximum number of characters this pattern will accept: "
           +:+ repr_str p) in
    Case_init (Pattern p) alts = Raise e /\
    Case_init (NoCase p) alts = Raise e /\
    (forall n, Case_init (PredefPattern n p) alts = Raise e) /\
    Case_init Failure alts = Raise NotImplementedError.
Proof.
  intros p alts Hp e. unfold Case_init. cbn.
  unfold Pattern_max_match_length. rewrite Hp. repeat split.
Qed.

Lemma Case_init_unknown_length_witness :
  Case_init (Pattern "[0-9]") []
  = Raise (ValueError
             "Cannot compute the maximum number of characters this pattern will accept: '[0-9]'").
Proof.
  destruct (Case_init_unknown_length "[0-9]" []) as (H & _).
  - reflexivity.
  - exact H.
Defined.

(** The maximum match length of a concatenation of two patterns is
    known exactly when it is known for both, and is then the sum. *)
Theorem Pattern_max_match_length_app :
  forall (p q : string) (n : Z),
    max_match_length (Pattern (p +:+ q)) = Ok n <->
    exists a b,
      max_match_length (Pattern p) = Ok a /\
      max_match_length (Pattern q) = Ok b /\ n = (a + b)%Z.
Proof.
  intros p q n. unfold max_match_length, Pattern_max_match_length.
  rewrite pattern_chars_ok_app, length_append. split.
  - destruct (pattern_chars_ok p), (pattern_chars_ok q); cbn;
      try discriminate.
    intros H. inversion H. eexists _, _.
    split; [reflexivity|]. split; [reflexivity|]. lia.
  - intros (a & b & Ha & Hb & ->).
    destruct (pattern_chars_ok p); [|discriminate].
    destruct (pattern_chars_ok q); [|discriminate].
    inversion Ha. inversion Hb. cbn. f_equal. lia.
Qed.

Lemma Pattern_max_match_length_app_witness :
  max_match_length (Pattern ("'." +:+ "'")) = Ok 3%Z.
Proof.
  apply (Pattern_max_match_length_app "'." "'" 3%Z).
  exists 2%Z, 1%Z. repeat split.
Defined.

(** *** add_rules and add_patterns as a whole *)

(** One call of [add_rules] with several entries does what successive
    calls with the entries in turn do, whether or not one of them is
    refused. *)
Theorem add_rules_app :
  forall (xs ys : list pyobj) (self : Lexer),
    add_rules (xs ++ ys) self = (add_rules xs;;; add_rules ys) self.
Proof.
  induction xs as [|x xs IH]; intros ys self; [reflexivity|].
  cbn [app add_rules]. unfold andthen.
  destruct (add_rule x self) as [[u|e] self1]; [|reflexivity].
  rewrite IH. reflexivity.
Qed.

(** Whatever its outcome, [add_rules] only appends to the rule list: the
    rules already there stay, in place; it appends one rule per entry
    when it returns and fewer when an entry is refused; and it leaves
    the tokens, their names, the patterns and the indentation flag
    alone. *)
Theorem add_rules_only_appends :
  forall (entries : list pyobj) (self : Lexer)
         (o : outcome unit) (self' : Lexer),
    add_rules entries self = (o, self') ->
    exists added,
      rules self' = rules self ++ added /\
      (if is_ok o then length added = length entries
       else length added < length entries) /\
      tokens self' = tokens self /\
      tokens_set self' = tokens_set self /\
      patterns self' = patterns self /\
      _patterns self' = _patterns self /\
      track_indent self' = track_indent self.
Proof.
  induction entries as [|e entries IH]; intros self o self' H.
  - inversion H; subst. exists []. rewrite app_nil_r. repeat split.
  - cbn [add_rules] in H. unfold andthen in H. rewrite add_rule_eq in H.
    destruct (as_rule e) as [r|].
    + apply IH in H as (added & Hr & Hlen & Ht & Hs & Hp & Hp' & Hi).
      exists (r :: added). rewrite Hr. cbn. rewrite <- app_assoc.
      split; [reflexivity|]. split.
      { destruct (is_ok o); lia. }
      repeat split; assumption.
    + inversion H; subst. exists []. rewrite app_nil_r. cbn.
      split; [reflexivity|]. split; [lia|]. repeat split.
Qed.

Lemma add_rules_only_appends_witness :
  exists self',
    add_rules [PyTuple [PyMatcher (Literal "+"); PyAction Ignore];
               PyInt 3] example_lexer
    = (Raise (AssertionError EmptyString), self') /\
    exists added,
      rules self' = rules example_lexer ++ added /\ length added < 2.
Proof.
  eexists. split; [vm_compute; reflexivity|].
  edestruct (add_rules_only_appends
               [PyTuple [PyMatcher (Literal "+"); PyAction Ignore]; PyInt 3]
               example_lexer)
    as (added & Hr & Hlen & _); [vm_compute; reflexivity|].
  exists added. split; [exact Hr | exact Hlen].
Defined.

Lemma last_literal_snoc t rs r :
  last_literal t (rs ++ [r])
  = if is_literal t r then Some (action r) else last_literal t rs.
Proof.
  induction rs as [|r' rs IH]; cbn.
  - destruct (is_literal t r); reflexivity.
  - rewrite IH. destruct (is_literal t r); [reflexivity|].
    destruct (last_literal t rs); reflexivity.
Qed.

Lemma with_rule_consistent self r :
  literals_consistent self -> literals_consistent (with_rule self r).
Proof.
  intros H t. unfold with_rule. cbn. rewrite last_literal_snoc.
  unfold record_literal, is_literal.
  destruct (matcher r) as [[| |to_match| | |]| | | | | | |]; try apply H.
  destruct (String.eqb_spec to_match t) as [->|Hne].
  - apply lookup_insert_eq.
  - rewrite lookup_insert_ne by exact Hne. apply H.
Qed.

Lemma add_rules_consistent entries : forall self o self',
  literals_consistent self ->
  add_rules entries self = (o, self') ->
  literals_consistent self'.
Proof.
  induction entries as [|e entries IH]; intros self o self' Hc H.
  - inversion H; subst. exact Hc.
  - cbn [add_rules] in H. unfold andthen in H. rewrite add_rule_eq in H.
    destruct (as_rule e) as [r|].
    + eapply IH; [|exact H]. apply with_rule_consistent. exact Hc.
    + inversion H; subst. exact Hc.
Qed.

Lemma add_patterns_run pats : forall self,
  add_patterns pats self
  = (Ok tt,
     set_patterns
       (foldl (fun m kv => <[lower (fst kv) := PredefPattern (fst kv) (snd kv)]> m)
              (patterns self) pats)
       (_patterns self
          ++ ((fun kv => PredefPattern (fst kv) (snd kv)) <$> pats))
       self).
Proof.
  induction pats as [|[k v] pats IH]; intros self.
  - cbn. rewrite app_nil_r. destruct self. reflexivity.
  - cbn [add_patterns]. cbv [andthen modify]. rewrite IH. cbn.
    rewrite <- app_assoc. reflexivity.
Qed.

(** The initial lexer of [Lexer.__init__], before the implicit rules. *)
Lemma Lexer_init_inv klass bases track_indent c self c' :
  Lexer_init klass bases track_indent c = (Ok self, c') ->
  exists toks implicit,
    LexerToken_init klass bases track_indent c = (Ok toks, c') /\
    self = foldl with_rule
                 (mkLexer toks ∅ [] []
                          (list_to_set (omap name (fields toks)))
                          track_indent ∅)
                 implicit.
Proof.
  unfold Lexer_init. intros H.
  apply andthen_ok_inv in H as (toks & c1 & Htoks & H).
  apply andthen_ok_inv in H as (T & c2 & HT & H).
  apply andthen_ok_inv in H as (F & c3 & HF & H).
  unfold lift in HT, HF.
  inversion HT; subst c2; clear HT. inversion HF; subst c3; clear HF.
  apply andthen_ok_inv in H as (self1 & c4 & Hrun & H).
  rewrite add_rules_ok in Hrun
    by (repeat constructor; eexists; reflexivity).
  inversion Hrun; subst self1 c4; clear Hrun.
  destruct track_indent.
  - apply andthen_ok_inv in H as (N & c5 & HN & H).
    unfold lift in HN. inversion HN; subst c5; clear HN.
    rewrite add_rules_ok in H by (repeat constructor; eexists; reflexivity).
    inversion H; subst.
    exists toks,
      [mkRuleAssoc (PyMatcher Eof) (PyAction (TokAct T));
       mkRuleAssoc (PyMatcher Failure) (PyAction (TokAct F));
       mkRuleAssoc (PyMatcher (Literal "\n")) (PyAction (TokAct N))].
    split; [exact Htoks | reflexivity].
  - inversion H; subst.
    exists toks,
      [mkRuleAssoc (PyMatcher Eof) (PyAction (TokAct T));
       mkRuleAssoc (PyMatcher Failure) (PyAction (TokAct F))].
    split; [exact Htoks | reflexivity].
Qed.

Lemma foldl_with_rule_consistent rs : forall self,
  literals_consistent self -> literals_consistent (foldl with_rule self rs).
Proof.
  induction rs as [|r rs IH]; intros self H; [exact H|].
  cbn. apply IH, with_rule_consistent, H.
Qed.

Lemma literals_consistent_init klass bases track_indent c self c' :
  Lexer_init klass bases track_indent c = (Ok self, c') ->
  literals_consistent self.
Proof.
  intros H. apply Lexer_init_inv in H as (toks & implicit & _ & ->).
  apply foldl_with_rule_consistent. intros t. apply lookup_empty.
Qed.

Lemma example_lexer_eq :
  Lexer_init Token_class [LexerToken_dict] false 5 = (Ok example_lexer, 5).
Proof. vm_compute. reflexivity. Qed.

(** The map of literals of a lexer always says what its rule list says:
    right after construction, a text is mapped exactly when some rule
    has the literal of that text as its matcher, and then to the action
    of the last such rule. *)
Theorem Lexer_init_literals_consistent :
  forall (klass : ClassDict) (bases : list ClassDict) (track_indent : bool)
         (c : nat) (self : Lexer) (c' : nat),
    Lexer_init klass bases track_indent c = (Ok self, c') ->
    literals_consistent self.
Proof.
  intros klass bases track_indent c self c' H.
  eapply literals_consistent_init. exact H.
Qed.

Lemma Lexer_init_literals_consistent_witness :
  literals_consistent example_lexer.
Proof.
  apply (Lexer_init_literals_consistent
           Token_class [LexerToken_dict] false 5 example_lexer 5).
  vm_compute. reflexivity.
Defined.

(** [add_rules], whatever its outcome, and [add_patterns] keep the map of
    literals in step with the rule list. *)
Theorem literals_consistent_kept :
  forall (self : Lexer),
    literals_consistent self ->
    (forall entries o self',
        add_rules entries self = (o, self') -> literals_consistent self') /\
    (forall pats o self',
        add_patterns pats self = (o, self') -> literals_consistent self').
Proof.
  intros self Hc. split.
  - intros entries o self' H. eapply add_rules_consistent; eassumption.
  - intros pats o self' H. rewrite add_patterns_run in H.
    inversion H; subst. exact Hc.
Qed.

Lemma literals_consistent_kept_witness :
  let self' :=
    with_rule example_lexer
              (mkRuleAssoc (PyMatcher (Literal "+")) (PyAction Ignore)) in
  add_rules [PyTuple [PyMatcher (Literal "+"); PyAction Ignore];
             PyInt 3] example_lexer
  = (Raise (AssertionError EmptyString), self') /\
  literals_consistent self'.
Proof.
  intros self'.
  assert (add_rules [PyTuple [PyMatcher (Literal "+"); PyAction Ignore];
                     PyInt 3] example_lexer
          = (Raise (AssertionError EmptyString), self')) as H
      by reflexivity.
  split; [exact H|].
  destruct (literals_consistent_kept example_lexer) as [Hadd _].
  - exact (literals_consistent_init _ _ _ _ _ _ example_lexer_eq).
  - exact (Hadd _ _ _ H).
Defined.



(** *** sorted_tokens *)

Lemma NoDup_fmap_inj_on {A B} (f : A -> B) (l : list A) x y :
  NoDup (f <$> l) -> x ∈ l -> y ∈ l -> f x = f y -> x = y.
Proof.
  induction l as [|z l IH]; intros Hnd Hx Hy Hf; [inversion Hx|].
  rewrite fmap_cons in Hnd. apply NoDup_cons in Hnd as [Hz Hnd].
  apply elem_of_cons in Hx as [->|Hx], Hy as [->|Hy].
  - reflexivity.
  - exfalso. apply Hz. rewrite Hf. apply list_elem_of_fmap.
    exists y. split; [reflexivity | exact Hy].
  - exfalso. apply Hz. rewrite <- Hf. apply list_elem_of_fmap.
    exists x. split; [reflexivity | exact Hx].
  - apply IH; assumption.
Qed.

(** [sorted_tokens] holds the fields of the tokens instance, each as
    often as there, in increasing order of value; and when the values
    are pairwise distinct it does not depend on the order in which the
    class dictionaries list their items: two lexers with the same
    fields in different orders have the same [sorted_tokens]. *)
Theorem sorted_tokens_order_independent :
  forall self1 self2 : Lexer,
    fields (tokens self1) ≡ₚ fields (tokens self2) ->
    NoDup (value <$> fields (tokens self1)) ->
    sorted_tokens self1 ≡ₚ fields (tokens self1) /\
    StronglySorted by_value (sorted_tokens self1) /\
    sorted_tokens self1 = sorted_tokens self2.
Proof.
  intros self1 self2 Hperm Hnd. unfold sorted_tokens.
  split; [apply merge_sort_Permutation|].
  split; [apply StronglySorted_merge_sort; apply _|].
  apply (StronglySorted_unique_strong by_value).
  - intros x1 x2 H1 H2 H12 H21.
    apply (NoDup_fmap_inj_on value (fields (tokens self1))).
    + exact Hnd.
    + rewrite <- (merge_sort_Permutation by_value). exact H1.
    + rewrite Hperm, <- (merge_sort_Permutation by_value). exact H2.
    + unfold by_value in H12, H21. lia.
  - apply StronglySorted_merge_sort; apply _.
  - apply StronglySorted_merge_sort; apply _.
  - rewrite !merge_sort_Permutation. exact Hperm.
Qed.

Lemma sorted_tokens_order_independent_witness :
  let reversed :=
    mkLexer (mkLexerToken (mro (tokens example_lexer))
                          (reverse (fields (tokens example_lexer))))
            ∅ [] [] (tokens_set example_lexer) false ∅ in
  sorted_tokens example_lexer = sorted_tokens reversed.
Proof.
  intros reversed.
  apply (sorted_tokens_order_independent example_lexer reversed).
  - cbn [tokens fields reversed]. symmetry. apply reverse_Permutation.
  - compute_done.
Defined.

(** *** Declared kinds as attributes and as names *)

Lemma declare_lookup_other decls k : forall d c,
  k ∉ fld_name <$> decls -> declare decls d c !! k = d !! k.
Proof.
  induction decls as [|x decls IH]; intros d c Hk; [reflexivity|].
  rewrite fmap_cons in Hk. apply not_elem_of_cons in Hk as [Hne Hk].
  cbn. rewrite IH by exact Hk. apply lookup_insert_ne.
  intros Heq. apply Hne. symmetry. exact Heq.
Qed.

Lemma declare_lookup decls : forall d c i x,
  NoDup (fld_name <$> decls) ->
  decls !! i = Some x ->
  declare decls d c !! fld_name x
  = Some (mkTokenAction (fld_class x) (c + i) None
                        (fld_start_ignore_layout x)
                        (fld_end_ignore_layout x)).
Proof.
  induction decls as [|y decls IH]; intros d c i x Hnd Hi; [inversion Hi|].
  rewrite fmap_cons in Hnd. apply NoDup_cons in Hnd as [Hy Hnd].
  destruct i as [|i]; cbn in Hi.
  - inversion Hi; subst y. cbn. rewrite declare_lookup_other by exact Hy.
    rewrite lookup_insert_eq, Nat.add_0_r. reflexivity.
  - cbn. rewrite (IH _ _ i x Hnd Hi). rewrite Nat.add_succ_r. reflexivity.
Qed.

Lemma instances_lookup decls : forall c i x,
  decls !! i = Some x -> instance_of x (c + i) ∈ instances decls c.
Proof.
  induction decls as [|y decls IH]; intros c i x Hi; [inversion Hi|].
  destruct i as [|i]; cbn in Hi.
  - inversion Hi; subst y. rewrite Nat.add_0_r. left.
  - cbn. right. rewrite <- Nat.add_succ_comm. apply IH. exact Hi.
Qed.

Lemma plain_name_not_own (attr : string) :
  plain_name attr = true -> attr ∉ Lexer_attributes.
Proof.
  unfold plain_name. intros H. apply andb_true_iff in H as [Hc Hpub].
  apply bool_decide_eq_true in Hpub.
  unfold Lexer_attributes. intros Hin. apply elem_of_app in Hin as [Hin|Hin].
  - apply Hpub. apply elem_of_app. left. exact Hin.
  - apply list_elem_of_In in Hin. simpl in Hin.
    repeat (destruct Hin as [<-|Hin]; [discriminate Hc|]).
    exact Hin.
Qed.

(** In the lexer of a tokens class whose body declares [decls] under
    distinct plain names (no name of an attribute of the lexer or of
    the tokens instance themselves, none that starts with an
    underscore, and no layout kind when indentation is tracked), the
    tokens instance has two more kinds than declared (five more with
    indentation tracking); every declared kind is an attribute of the
    lexer, named after the attribute and with the value the counter
    had at its declaration; and [token_base_name] answers its name both
    for the kind itself and for that name.  The names of the lexer's
    own attributes never reach the tokens: normal lookup finds them. *)
Theorem declared_kinds_resolve :
  forall (decls : list TokenDecl) (c c1 : nat) (track_indent : bool),
    NoDup (fld_name <$> decls) ->
    Forall (fun x => plain_name (fld_name x) = true) decls ->
    (track_indent = true ->
     forall k, k ∈ fld_name <$> indent_decls -> k ∉ fld_name <$> decls) ->
    exists self c2,
      Lexer_init (declare decls ∅ c) [LexerToken_dict] track_indent c1
      = (Ok self, c2) /\
      LexerToken_len (tokens self)
      = 2 + length decls + (if track_indent then 3 else 0) /\
      (forall attr, attr ∈ Lexer_attributes ->
                    Lexer_getattr self attr = Ok OwnAttribute) /\
      forall i x,
        decls !! i = Some x ->
        Lexer_getattr self (fld_name x)
        = Ok (TokenKind (instance_of x (c + i))) /\
        instance_of x (c + i) ∈ fields (tokens self) /\
        token_base_name (PyAction (TokAct (instance_of x (c + i)))) self
        = (Ok (PyName (from_camel (fld_name x))), self) /\
        token_base_name (PyName (from_camel (fld_name x))) self
        = (Ok (PyName (from_camel (fld_name x))), self).
Proof.
  intros decls c c1 track_indent Hnd Hplain Hind.
  destruct (Lexer_init_eq (declare decls ∅ c) [] track_indent c1)
    as (self & c2 & T & F & Hinit & Htok & _).
  exists self, c2. split; [exact Hinit|].
  pose proof (fields_catalog decls c c1 track_indent Hnd Hind) as Hperm.
  assert (fields (tokens self) ≡ₚ catalog decls c c1 track_indent) as Hfields.
  { rewrite Htok. exact Hperm. }
  split.
  { unfold LexerToken_len. rewrite Hfields. unfold catalog.
    rewrite !length_app, !length_instances.
    destruct track_indent; [rewrite length_instances|]; cbn; lia. }
  split.
  { intros attr Hattr. unfold Lexer_getattr.
    rewrite bool_decide_eq_true_2 by exact Hattr. reflexivity. }
  intros i x Hi.
  assert (instance_of x (c + i) ∈ fields (tokens self)) as Hin.
  { rewrite Hfields. unfold catalog. apply elem_of_app. right.
    apply elem_of_app. left. apply instances_lookup. exact Hi. }
  assert (from_camel (fld_name x) ∈ tokens_set self) as Hset.
  { apply Lexer_init_inv in Hinit as (toks & implicit & _ & Hself).
    assert (tokens_set self
            = list_to_set (omap name (fields (tokens self)))) as ->.
    { rewrite Hself.
      destruct (foldl_with_rule_others
                  implicit
                  (mkLexer toks ∅ [] []
                           (list_to_set (omap name (fields toks)))
                           track_indent ∅)) as (-> & -> & _).
      reflexivity. }
    apply elem_of_list_to_set, list_elem_of_omap.
    exists (instance_of x (c + i)). split; [exact Hin | reflexivity]. }
  split.
  { unfold Lexer_getattr.
    pose proof (proj1 (Forall_lookup _ _) Hplain i x Hi) as Hx.
    rewrite bool_decide_eq_false_2 by (apply plain_name_not_own; exact Hx).
    assert (String.eqb (fld_name x) "fields" = false) as ->.
    { apply String.eqb_neq. intros Heq. cbv beta in Hx. rewrite Heq in Hx.
      discriminate Hx. }
    assert (getattr (tokens self) (fld_name x) = Ok (instance_of x (c + i)))
      as ->; [|reflexivity].
    unfold getattr. rewrite Htok. unfold lexer_classes.
    cbn [mro fmap list_fmap]. apply lookup_mro_first.
    rewrite lookup_named.
    assert ((if track_indent
             then declare indent_decls (declare decls ∅ c) c1
             else declare decls ∅ c) !! fld_name x
            = declare decls ∅ c !! fld_name x) as ->.
    { destruct track_indent; [|reflexivity].
      apply declare_lookup_other. intros Hk.
      apply (Hind eq_refl _ Hk). apply list_elem_of_fmap.
      exists x. split; [reflexivity|].
      apply list_elem_of_lookup. exists i. exact Hi. }
    rewrite (declare_lookup decls ∅ c i x Hnd Hi). reflexivity. }
  split; [exact Hin|]. split; [reflexivity|].
  cbv [token_base_name andthen get assert].
  rewrite bool_decide_eq_true_2 by exact Hset. reflexivity.
Qed.

Lemma declared_kinds_resolve_witness :
  exists self c2,
    Lexer_init Token_class [LexerToken_dict] true 5 = (Ok self, c2) /\
    LexerToken_len (tokens self) = 8 /\
    Lexer_getattr self "Identifier"
    = Ok (TokenKind (mkTokenAction WithSymbol 3 (Some (mkName "Identifier"))
                                   false false)).
Proof.
  destruct (declared_kinds_resolve Token_decls 2 5 true)
    as (self & c2 & Hinit & Hlen & _ & Hx).
  - compute_done.
  - repeat constructor.
  - intros _ k Hk. apply list_elem_of_In in Hk. simpl in Hk.
    destruct Hk as [<-|[<-|[<-|[]]]]; compute_done.
  - exists self, c2. split; [exact Hinit|]. split; [exact Hlen|].
    destruct (Hx 1 (mkDecl "Identifier" WithSymbol false false) eq_refl)
      as (Hget & _).
    exact Hget.
Defined.

End lexer_facts.

(* ===================================================================== *)
(** ** Properties of langkit/template_utils.py *)
(* ===================================================================== *)

Module template_utils_facts.

Import template_utils.
#[local] Open Scope tu_scope.

Lemma and_then_returns {X S A B} (c : Comp X S A) (k : A -> Comp X S B)
    s a s1 :
  c s = (Returns a, s1) -> and_then c k s = k a s1.
Proof. unfold and_then. intros ->. reflexivity. Qed.


Section renderer_facts.

Context {V T E X : Type}.
Variable Template : string -> Comp X E T.
Variable Template_render : T -> gmap string V -> Comp X E string.
Variable report_error : Comp X E unit.
Variable is_Exception : X -> bool.
Variable module_dir : string.

Local Abbreviation Process := (@Process V T E).
Local Abbreviation dict := (gmap string V).
Local Abbreviation P := (Comp (error X) Process).
Local Abbreviation mako_template := (mako_template Template module_dir).
Local Abbreviation reporting := (reporting report_error is_Exception).
Local Abbreviation _render :=
  (_render Template Template_render report_error is_Exception module_dir).
Local Abbreviation render :=
  (render Template Template_render report_error is_Exception module_dir).
Local Abbreviation render_with :=
  (render_with Template Template_render report_error is_Exception
               module_dir).

Lemma keeps_refl (p : Process) : keeps p p.
Proof. split; [auto | reflexivity]. Qed.

Lemma keeps_trans (p1 p2 p3 : Process) :
  keeps p1 p2 -> keeps p2 p3 -> keeps p1 p3.
Proof.
  intros [H1 C1] [H2 C2]. split; [auto | etrans; eassumption].
Qed.

Lemma keeps_and_then {A B} (c : P A) (k : A -> P B) :
  (forall p, keeps p (c p).2) -> (forall a p, keeps p (k a p).2) ->
  forall p, keeps p (and_then c k p).2.
Proof.
  intros Hc Hk p. unfold and_then. specialize (Hc p).
  destruct (c p) as [[a|e] p1]; cbn in *; [|exact Hc].
  eapply keeps_trans; [exact Hc | apply Hk].
Qed.

Lemma keeps_on_outside {A} (c : Comp X E A) (p : Process) :
  keeps p (on_outside (V:=V) (T:=T) c p).2.
Proof.
  unfold on_outside. destruct (c (outside p)) as [[a|x] e]; cbn;
    (split; [auto | reflexivity]).
Qed.

Lemma keeps_reporting {A} (body : P A) :
  (forall p, keeps p (body p).2) ->
  forall p, keeps p (reporting body p).2.
Proof.
  intros Hb p. unfold template_utils.reporting. specialize (Hb p).
  destruct (body p) as [[a|e] p1]; cbn in *; [exact Hb|].
  destruct (caught is_Exception e); [|exact Hb].
  pose proof (keeps_on_outside report_error p1) as Hr.
  destruct (on_outside report_error p1) as [[u|e'] p2]; cbn in *;
    eapply keeps_trans; eassumption.
Qed.

Lemma keeps_read l (p : Process) : keeps p (read (X:=X) l p).2.
Proof. apply keeps_refl. Qed.

Lemma keeps_or_empty arg (p : Process) : keeps p (or_empty (X:=X) arg p).2.
Proof. destruct arg; apply keeps_refl. Qed.

Lemma keeps_new_dict (d : dict) (p : Process) :
  keeps p (new_dict (X:=X) d p).2.
Proof.
  split; cbn; [|reflexivity].
  intros l d' H. apply lookup_app_l_Some. exact H.
Qed.

Lemma keeps_Renderer_init arg (kwargs : dict) (p : Process) :
  keeps p (Renderer_init (X:=X) arg kwargs p).2.
Proof.
  unfold Renderer_init.
  assert (forall d : dict, keeps p
            ((e <- new_dict (X:=X) d;; dict_update e kwargs;;;
              done (mkRenderer e)) p).2) as H.
  { intros d. cbn. split; cbn; [|reflexivity].
    intros l d' Hl. pose proof (lookup_lt_Some _ _ _ Hl) as Hlt.
    rewrite list_lookup_alter_ne by lia.
    apply lookup_app_l_Some. exact Hl. }
  destruct arg as [l|]; cbn; apply H.
Qed.

Lemma keeps_Renderer_call l (keywords : dict) (p : Process) :
  keeps p (Renderer_call (X:=X) l keywords p).2.
Proof.
  unfold Renderer_call. destruct (bound_by_position keywords).
  - apply keeps_refl.
  - apply keeps_Renderer_init.
Qed.

Lemma keeps_mako_template file_name (p : Process) :
  keeps p (mako_template file_name p).2.
Proof.
  unfold template_utils.mako_template.
  destruct (template_cache p !! _) as [t|] eqn:Hc; cbn; [apply keeps_refl|].
  unfold and_then, on_outside.
  destruct (Template _ (outside p)) as [[t|e] o]; cbn.
  - split; cbn; [auto|]. apply insert_subseteq. exact Hc.
  - split; cbn; [auto | reflexivity].
Qed.

Lemma keeps_update self env_arg (p : Process) :
  keeps p (update (X:=X) self env_arg p).2.
Proof.
  unfold update. apply keeps_and_then; [apply keeps_read|].
  intros kw p'. apply keeps_Renderer_call.
Qed.

Lemma keeps__render self name (p : Process) : keeps p (_render self name p).2.
Proof.
  unfold template_utils._render. apply keeps_reporting.
  apply keeps_and_then; [apply keeps_mako_template|]. intros t.
  apply keeps_and_then; [apply keeps_read|]. intros d.
  apply keeps_on_outside.
Qed.

Lemma keeps_render self name env_arg (kwargs : dict) (p : Process) :
  keeps p (render self name env_arg kwargs p).2.
Proof.
  unfold template_utils.render.
  destruct (bound_by_render kwargs); [apply keeps_refl|].
  unfold render_body. revert p.
  apply keeps_and_then; [apply keeps_or_empty|]. intros e.
  apply keeps_and_then; [apply keeps_new_dict|]. intros te.
  apply keeps_and_then; [apply keeps_update|]. intros r.
  apply keeps__render.
Qed.

Lemma foldl_insert_items (l : list (string * V)) (m : dict) :
  NoDup l.*1 ->
  foldl (fun d kv => <[kv.1 := kv.2]> d) m l = list_to_map l ∪ m.
Proof.
  revert m. induction l as [|[k v] l IH]; intros m Hnd; cbn.
  - symmetry. apply (left_id_L ∅ (∪)).
  - apply NoDup_cons in Hnd as [Hk Hnd]. rewrite IH by exact Hnd.
    rewrite <- insert_union_l.
    rewrite insert_union_r by (apply not_elem_of_list_to_map_1; exact Hk).
    reflexivity.
Qed.

Lemma dict_of_items_app (e kwargs : dict) :
  dict_of_items (items e ++ items kwargs) = kwargs ∪ e.
Proof.
  unfold dict_of_items, items. rewrite foldl_app.
  rewrite !foldl_insert_items by apply NoDup_fst_map_to_list.
  rewrite !list_to_map_to_list. rewrite (right_id_L ∅ (∪)). reflexivity.
Qed.

Lemma Renderer_call_run l (d keywords : dict) (p : Process) :
  heap p !! l = Some d ->
  bound_by_position keywords = false ->
  Renderer_call (X:=X) l keywords p
  = (Returns (mkRenderer (length (heap p))),
     set_heap (heap p ++ [keywords ∪ d]) p).
Proof.
  intros H Hk. unfold Renderer_call, Renderer_init. rewrite Hk.
  cbv [and_then or_empty read new_dict dict_update done].
  rewrite H. cbn. unfold set_heap. cbn. do 3 f_equal.
  rewrite <- (Nat.add_0_r (length (heap p))).
  rewrite alter_app_r. reflexivity.
Qed.

Lemma read_new (d : dict) (p : Process) :
  read (X:=X) (length (heap p)) (set_heap (heap p ++ [d]) p)
  = (Returns d, set_heap (heap p ++ [d]) p).
Proof.
  unfold read. cbn. rewrite lookup_app_r by lia.
  rewrite Nat.sub_diag. reflexivity.
Qed.

Lemma mako_template_heap file_name (p : Process) :
  heap (mako_template file_name p).2 = heap p.
Proof.
  unfold template_utils.mako_template.
  destruct (template_cache p !! _) as [t|]; cbn; [reflexivity|].
  unfold and_then, on_outside.
  destruct (Template _ (outside p)) as [[t|e] o]; reflexivity.
Qed.

Lemma mako_template_entry file_name (p : Process) t p' :
  mako_template file_name p = (Returns t, p') ->
  template_cache p' !! t_path module_dir file_name = Some t.
Proof.
  unfold template_utils.mako_template.
  destruct (template_cache p !! _) as [t0|] eqn:Hc; cbn.
  - intros H. injection H as <- <-. exact Hc.
  - unfold and_then, on_outside.
    destruct (Template _ (outside p)) as [[t0|e] o];
      cbn; intros H; [|discriminate H].
    injection H as <- <-. cbn. apply lookup_insert_eq.
Qed.

(** Whatever their outcome, [render], [update], [extend] and
    [mako_template] leave every dictionary that existed before the call
    with the bindings it had, the renderer's own environment and the
    caller's [env] included, and leave every cached template in the
    cache. *)
Theorem rendering_keeps_environments :
  forall (self : Renderer) (name : string) (env_arg : option nat)
         (a : nat) (kwargs : dict) (p : Process),
    keeps p (render self name env_arg kwargs p).2 /\
    keeps p (update (X:=X) self a p).2 /\
    keeps p (extend (X:=X) self kwargs p).2 /\
    keeps p (mako_template name p).2.
Proof.
  intros self name env_arg a kwargs p.
  split; [apply keeps_render|].
  split; [apply keeps_update|].
  split; [|apply keeps_mako_template].
  unfold extend. destruct (bool_decide _); [apply keeps_refl|].
  apply keeps_Renderer_call.
Qed.

(** Once [mako_template] has returned a template for a file name, it
    returns that same template for that name in every later state of
    the process that has kept the cache, without calling the template
    engine and without changing anything. *)
Theorem mako_template_cached :
  forall (file_name : string) (p p' p'' : Process) (t : T),
    mako_template file_name p = (Returns t, p') ->
    keeps p' p'' ->
    mako_template file_name p'' = (Returns t, p'').
Proof.
  intros file_name p p' p'' t H [_ Hsub].
  apply mako_template_entry in H.
  pose proof (lookup_weaken _ _ _ _ H Hsub) as H''.
  unfold template_utils.mako_template.
  rewrite H''. reflexivity.
Qed.

Lemma render_body_merged self name env_arg (kwargs : dict) (p : Process) :
  let e := match env_arg with
           | Some l => default ∅ (heap p !! l)
           | None => ∅
           end in
  render_body Template Template_render report_error is_Exception module_dir
              self name env_arg kwargs p
  = (r <- update (X:=X) self (length (heap p));; _render r name)
      (set_heap (heap p ++ [kwargs ∪ e]) p).
Proof.
  intros e. unfold render_body.
  assert (or_empty (X:=X) env_arg p = (Returns e, p)) as He.
  { destruct env_arg; reflexivity. }
  rewrite (and_then_returns _ _ _ _ _ He). rewrite dict_of_items_app.
  rewrite (and_then_returns _ _ _ _ _
             (eq_refl : new_dict (kwargs ∪ e) p = _)).
  reflexivity.
Qed.

(** A call of [render] whose keywords name none of its parameters and
    in which neither the keywords nor [env] bind [self] or
    [template_env] hands the template the bindings of the keywords,
    then those of [env] for the names the keywords do not bind, then
    those of the renderer for the names neither binds, in whatever
    order the dictionaries list their items; it allocates two
    dictionaries and changes none. *)
Theorem render_environment :
  forall (self : Renderer) (name : string) (env_arg : option nat)
         (kwargs d : dict) (p : Process),
    heap p !! env self = Some d ->
    let e := match env_arg with
             | Some l => default ∅ (heap p !! l)
             | None => ∅
             end in
    bound_by_render kwargs = false ->
    bound_by_position (kwargs ∪ e) = false ->
    render self name env_arg kwargs p
    = render_with name (kwargs ∪ e ∪ d)
        (set_heap (heap p ++ [kwargs ∪ e; kwargs ∪ e ∪ d]) p).
Proof.
  intros self name env_arg kwargs d p Hd e Hr Hk.
  unfold template_utils.render. rewrite Hr.
  rewrite render_body_merged. fold e.
  set (p1 := set_heap (heap p ++ [kwargs ∪ e]) p).
  assert (update (X:=X) self (length (heap p)) p1
          = (Returns (mkRenderer (length (heap p1))),
             set_heap (heap p1 ++ [kwargs ∪ e ∪ d]) p1)) as Hu.
  { unfold update, p1.
    rewrite (and_then_returns _ _ _ _ _ (read_new _ p)).
    apply Renderer_call_run; [|exact Hk].
    cbn. apply lookup_app_l_Some. exact Hd. }
  rewrite (and_then_returns _ _ _ _ _ Hu).
  replace (set_heap (heap p1 ++ [kwargs ∪ e ∪ d]) p1)
    with (set_heap (heap p ++ [kwargs ∪ e; kwargs ∪ e ∪ d]) p)
    by (unfold set_heap, p1; cbn; rewrite <- app_assoc; reflexivity).
  set (p2 := set_heap _ p).
  unfold template_utils._render, template_utils.render_with,
    template_utils.reporting.
  assert (forall t (p3 : Process), heap p3 = heap p2 ->
            (d0 <- read (X:=X) (length (heap p1));;
             on_outside (Template_render t d0)) p3
            = on_outside (Template_render t (kwargs ∪ e ∪ d)) p3) as Hread.
  { intros t p3 Hh. cbv [and_then read]. rewrite Hh. unfold p2, p1. cbn.
    rewrite length_app. cbn. rewrite lookup_app_r by lia.
    replace (length (heap p) + 1 - length (heap p)) with 1 by lia.
    reflexivity. }
  unfold and_then at 1 3.
  pose proof (mako_template_heap name p2) as Hh.
  destruct (mako_template name p2) as [[t|x] p3]; cbn in Hh.
  - cbn [env]. rewrite (Hread t p3 Hh). reflexivity.
  - reflexivity.
Qed.


(** [extend] and [update] build a new renderer on a new dictionary: the
    new bindings shadow the renderer's, those of a later step shadow
    those of an earlier one, and the renderer they start from is the
    one it was. *)
Theorem extend_update_chain :
  forall (self : Renderer) (kwargs d db : dict) (b : nat) (p : Process),
    heap p !! env self = Some d ->
    heap p !! b = Some db ->
    bound_by_position kwargs = false ->
    bound_by_position db = false ->
    (r1 <- extend (X:=X) self kwargs;; update r1 b) p
    = (Returns (mkRenderer (S (length (heap p)))),
       set_heap (heap p ++ [kwargs ∪ d; db ∪ (kwargs ∪ d)]) p).
Proof.
  intros self kwargs d db b p Hd Hb Hk Hkb.
  unfold extend.
  assert (bool_decide (is_Some (kwargs !! "self")) = false) as ->.
  { unfold bound_by_position in Hk. apply orb_false_iff in Hk as [Hk _].
    exact Hk. }
  rewrite (and_then_returns _ _ _ _ _ (Renderer_call_run _ _ kwargs _ Hd Hk)).
  unfold update.
  set (p1 := set_heap (heap p ++ [kwargs ∪ d]) p).
  assert (read (X:=X) b p1 = (Returns db, p1)) as Hr.
  { unfold read. cbn. rewrite (lookup_app_l_Some _ _ _ _ Hb). reflexivity. }
  rewrite (and_then_returns _ _ _ _ _ Hr).
  rewrite (Renderer_call_run _ (kwargs ∪ d) db p1).
  - unfold p1, set_heap. cbn. rewrite length_app. cbn.
    rewrite Nat.add_1_r. rewrite <- app_assoc. reflexivity.
  - cbn. rewrite lookup_app_r by lia. rewrite Nat.sub_diag. reflexivity.
  - exact Hkb.
Qed.

End renderer_facts.

Lemma mako_template_cached_witness :
  exists t p',
    mako_template (V:=nat) (X:=unit) example_Template "/langkit"
                  "lexer/quex_lexer_spec" example_process
    = (Returns t, p') /\
    mako_template (V:=nat) (X:=unit) example_Template "/langkit"
                  "lexer/quex_lexer_spec" p'
    = (Returns t, p').
Proof.
  eexists _, _. split; [reflexivity|].
  eapply (mako_template_cached (V:=nat) example_Template "/langkit"
            "lexer/quex_lexer_spec" example_process);
    [reflexivity | apply keeps_refl].
Defined.

Lemma render_environment_witness :
  render example_Template example_render (done tt) (fun _ => true)
         "/langkit" (mkRenderer 0) "lexer/case_action" None
         {["lexer" := 5; "Name" := 7]} example_process
  = render_with example_Template example_render (done tt) (fun _ => true)
         "/langkit" "lexer/case_action"
         ({["lexer" := 5; "Name" := 7]} ∪ ∅
            ∪ {["Name" := 0; "get_type" := 1]})
         (set_heap
            (heap example_process
               ++ [{["lexer" := 5; "Name" := 7]} ∪ ∅;
                   {["lexer" := 5; "Name" := 7]} ∪ ∅
                     ∪ {["Name" := 0; "get_type" := 1]}])
            example_process).
Proof.
  apply (render_environment example_Template example_render (done tt)
           (fun _ => true) "/langkit"
           (mkRenderer 0) "lexer/case_action" None
           {["lexer" := 5; "Name" := 7]}
           {["Name" := 0; "get_type" := 1]} example_process);
    reflexivity.
Defined.


Lemma extend_update_chain_witness :
  (r1 <- extend (X:=unit) (mkRenderer 0) {["a" := 2]};; update r1 0)
    example_process
  = (Returns (mkRenderer 2),
     set_heap
       (heap example_process
          ++ [{["a" := 2]} ∪ {["Name" := 0; "get_type" := 1]};
              {["Name" := 0; "get_type" := 1]}
                ∪ ({["a" := 2]} ∪ {["Name" := 0; "get_type" := 1]})])
       example_process).
Proof.
  apply (extend_update_chain (mkRenderer 0) {["a" := 2]}
           {["Name" := 0; "get_type" := 1]}
           {["Name" := 0; "get_type" := 1]} 0 example_process);
    reflexivity.
Defined.

End template_utils_facts.
